(** * RichText: the allowlist sanitizer, the markup classifier and the
      plain-text fallback of [src/components/RichText.tsx]

    The component receives a string of unknown origin.  When the string
    looks like markup it is handed to [sanitizeHtml], which parses it with
    the browser's [DOMParser], rewrites the resulting DOM in place and
    returns [body.innerHTML]; otherwise the string is split into lines and
    rendered as text.

    Conventions of the embedding.

    - A JavaScript string is a sequence of UTF-16 code units.  The model
      keeps the code units below 256 and writes each of them as one Rocq
      character (so character 160 is the no-break space, not a byte of some
      encoding).  The string functions of the language ([toLowerCase],
      [trim], [startsWith]) are written out for that range.
    - The DOM is a tree of nodes.  [walk] mutates it in place; the model
      returns, for the node it is called on, both the state of that node
      object after the call and what stands at its position in the parent's
      child list, because the caller of [walk] keeps a reference to the
      object itself.
    - The browser's parser and serialiser are not part of the repository;
      [sanitizeHtml] takes them as parameters.  A completion type records
      whether a call returns or throws. *)

From Stdlib Require Import String Ascii List Bool Arith NArith Lia Sorted Permutation.
From stdpp Require Import gmap strings.
Import ListNotations.

#[local] Set Warnings "-register-all".
Open Scope string_scope.

(** ** JavaScript strings *)

Module JS.

(** The code unit of a character. *)
Definition code (c : ascii) : N := N_of_ascii c.

Definition in_range (lo hi : N) (c : ascii) : bool :=
  (lo <=? code c)%N && (code c <=? hi)%N.

(** [A-Z] and [a-z]. *)
Definition isAsciiUpper (c : ascii) : bool := in_range 65 90 c.
Definition isAsciiLower (c : ascii) : bool := in_range 97 122 c.
Definition isAsciiLetter (c : ascii) : bool := isAsciiUpper c || isAsciiLower c.

(** Upper-case letters of the modelled range: A-Z and U+00C0..U+00DE
    without the multiplication sign U+00D7. *)
Definition isUpper (c : ascii) : bool :=
  isAsciiUpper c || (in_range 192 222 c && negb (code c =? 215)%N).

(** [String.prototype.toLowerCase] on one code unit. *)
Definition toLowerChar (c : ascii) : ascii :=
  if isUpper c then ascii_of_N (code c + 32) else c.

(** ASCII upper-casing of one code unit, as the DOM uses it for
    [Element.tagName]. *)
Definition asciiUpperChar (c : ascii) : ascii :=
  if isAsciiLower c then ascii_of_N (code c - 32) else c.

Definition asciiLowerChar (c : ascii) : ascii :=
  if isAsciiUpper c then ascii_of_N (code c + 32) else c.

Fixpoint map_string (f : ascii -> ascii) (s : string) : string :=
  match s with
  | EmptyString => EmptyString
  | String c r => String (f c) (map_string f r)
  end.

Definition toLowerCase : string -> string := map_string toLowerChar.
Definition asciiUpperCase : string -> string := map_string asciiUpperChar.
Definition asciiLowerCase : string -> string := map_string asciiLowerChar.

(** [s.startsWith(p)]. *)
Definition startsWith (s p : string) : bool := String.prefix p s.

(** WhiteSpace and LineTerminator code units of ECMAScript below 256:
    TAB, LF, VT, FF, CR, SPACE and NO-BREAK SPACE. *)
Definition isWhiteSpace (c : ascii) : bool :=
  in_range 9 13 c || (code c =? 32)%N || (code c =? 160)%N.

Fixpoint trimStart (s : string) : string :=
  match s with
  | EmptyString => EmptyString
  | String c r => if isWhiteSpace c then trimStart r else s
  end.

Fixpoint trimEnd (s : string) : string :=
  match s with
  | EmptyString => EmptyString
  | String c r =>
      match trimEnd r with
      | EmptyString => if isWhiteSpace c then EmptyString else String c EmptyString
      | r' => String c r'
      end
  end.

(** [s.trim()]. *)
Definition trim (s : string) : string := trimEnd (trimStart s).

(** Concatenation of a list of strings. *)
Definition join (l : list string) : string :=
  fold_right String.append EmptyString l.

End JS.

(** ** Regular expressions

    The two patterns of the source are kept as data.  [test] decides
    whether some substring of the subject belongs to the language of the
    pattern, which is what [RegExp.prototype.test] returns for a pattern
    without the global and sticky flags.  The flag [i] of a pattern is the
    parameter [ignoreCase]. *)

Module RegExp.

(** The members of a character class: a range, [\s] or [\S]. *)
Inductive ClassAtom : Type :=
| Range (lo hi : ascii)
| Space
| NonSpace.

Inductive Pattern : Type :=
| Never
| Empty
| Lit (c : ascii)
| Class (l : list ClassAtom)
| Seq (r1 r2 : Pattern)
| Alt (r1 r2 : Pattern)
| Star (r : Pattern).

(** [r?] *)
Definition Opt (r : Pattern) : Pattern := Alt r Empty.

(** Canonicalize of ECMAScript for a pattern without the [u] flag: with
    [ignoreCase] the code unit of the upper-case form when that form is one
    code unit, except that a code unit from 128 on is never mapped below
    128.  Within the modelled range: a-z, U+00E0..U+00FE without the
    division sign, y with diaeresis (to U+0178) and the micro sign (to
    U+039C). *)
Definition canonicalize (ignoreCase : bool) (c : ascii) : N :=
  let n := JS.code c in
  if negb ignoreCase then n
  else if JS.in_range 97 122 c then (n - 32)%N
  else if JS.in_range 224 254 c && negb (n =? 247)%N then (n - 32)%N
  else if (n =? 255)%N then 376%N
  else if (n =? 181)%N then 924%N
  else n.

Definition inAtom (a : ClassAtom) (c : ascii) : bool :=
  match a with
  | Range lo hi => JS.in_range (JS.code lo) (JS.code hi) c
  | Space => JS.isWhiteSpace c
  | NonSpace => negb (JS.isWhiteSpace c)
  end.

(** The code units of the model, 0 to 255. *)
Definition allChars : list ascii := map ascii_of_nat (seq 0 256).

Definition litMatches (ignoreCase : bool) (c ch : ascii) : bool :=
  (canonicalize ignoreCase c =? canonicalize ignoreCase ch)%N.

(** A class matches [ch] when one of its members has the canonical form of
    [ch]. *)
Definition classMatches (ignoreCase : bool) (l : list ClassAtom) (ch : ascii) : bool :=
  existsb (fun m => existsb (fun a => inAtom a m) l && litMatches ignoreCase m ch) allChars.

Fixpoint nullable (r : Pattern) : bool :=
  match r with
  | Never => false
  | Empty => true
  | Lit _ => false
  | Class _ => false
  | Seq r1 r2 => nullable r1 && nullable r2
  | Alt r1 r2 => nullable r1 || nullable r2
  | Star _ => true
  end.

(** The derivative of a pattern by one code unit. *)
Fixpoint deriv (i : bool) (ch : ascii) (r : Pattern) : Pattern :=
  match r with
  | Never => Never
  | Empty => Never
  | Lit c => if litMatches i c ch then Empty else Never
  | Class l => if classMatches i l ch then Empty else Never
  | Seq r1 r2 =>
      if nullable r1
      then Alt (Seq (deriv i ch r1) r2) (deriv i ch r2)
      else Seq (deriv i ch r1) r2
  | Alt r1 r2 => Alt (deriv i ch r1) (deriv i ch r2)
  | Star r1 => Seq (deriv i ch r1) (Star r1)
  end.

(** Some prefix of [s] matches [r]. *)
Fixpoint matchesPrefix (i : bool) (r : Pattern) (s : string) : bool :=
  nullable r ||
  match s with
  | EmptyString => false
  | String ch s' => matchesPrefix i (deriv i ch r) s'
  end.

(** [/r/.test(s)]: a match starts at some index of [s]. *)
Fixpoint test (i : bool) (r : Pattern) (s : string) : bool :=
  matchesPrefix i r s ||
  match s with
  | EmptyString => false
  | String _ s' => test i r s'
  end.

(** The language of a pattern. *)
Inductive Matches (i : bool) : Pattern -> string -> Prop :=
| MEmpty : Matches i Empty EmptyString
| MLit c ch : litMatches i c ch = true -> Matches i (Lit c) (String ch EmptyString)
| MClass l ch : classMatches i l ch = true -> Matches i (Class l) (String ch EmptyString)
| MSeq r1 r2 u v : Matches i r1 u -> Matches i r2 v -> Matches i (Seq r1 r2) (u +:+ v)
| MAltL r1 r2 u : Matches i r1 u -> Matches i (Alt r1 r2) u
| MAltR r1 r2 u : Matches i r2 u -> Matches i (Alt r1 r2) u
| MStarNil r : Matches i (Star r) EmptyString
| MStarApp r u v : Matches i r u -> Matches i (Star r) v -> Matches i (Star r) (u +:+ v).

End RegExp.

(** ** Completions: a call returns a value or throws *)

Inductive Completion (A : Type) : Type :=
| Normal (a : A)
| Throw.

Arguments Normal {A} a.
Arguments Throw {A}.

Global Instance Completion_ret : MRet Completion := fun A a => Normal a.

Global Instance Completion_bind : MBind Completion := fun A B k c =>
  match c with
  | Normal a => k a
  | Throw => Throw
  end.

(** [try { c } catch { h }]. *)
Definition tryCatch {A : Type} (c : Completion A) (h : Completion A) : Completion A :=
  match c with
  | Normal a => Normal a
  | Throw => h
  end.

(** ** The DOM *)

Record Attr : Type := mkAttr { name : string; value : string }.

(** An element carries its local name, its attribute list and its child
    list; text and comment nodes carry their data. *)
Inductive Node : Type :=
| Element (localName : string) (attributes : list Attr) (childNodes : list Node)
| Text (data : string)
| Comment (data : string).

(** [Element.tagName]: for an HTML element, the name in ASCII upper case. *)
Definition tagName (n : Node) : string :=
  match n with
  | Element l _ _ => JS.asciiUpperCase l
  | _ => EmptyString
  end.

Definition isElement (n : Node) : bool :=
  match n with Element _ _ _ => true | _ => false end.

Definition isComment (n : Node) : bool :=
  match n with Comment _ => true | _ => false end.

Definition children (n : Node) : list Node :=
  match n with Element _ _ cs => cs | _ => [] end.

Definition attrs (n : Node) : list Attr :=
  match n with Element _ a _ => a | _ => [] end.

(** The data of all text nodes of a subtree in tree order (comments do not
    contribute). *)
Fixpoint descendantText (n : Node) : string :=
  match n with
  | Text d => d
  | Comment _ => EmptyString
  | Element _ _ cs => JS.join (map descendantText cs)
  end.

(** [Node.textContent]. *)
Definition textContent (n : Node) : string :=
  match n with
  | Element _ _ _ => descendantText n
  | Text d => d
  | Comment d => d
  end.

(** All nodes strictly below [n], in tree order. *)
Fixpoint descendants (n : Node) : list Node :=
  match n with
  | Element _ _ cs => flat_map (fun c => c :: descendants c) cs
  | _ => []
  end.

(** [el.removeAttribute(qualifiedName)]: on an HTML element the argument is
    lower-cased (ASCII) and the first attribute of that name is removed. *)
Fixpoint removeFirst (q : string) (l : list Attr) : list Attr :=
  match l with
  | [] => []
  | a :: r => if (name a =? q)%string then r else a :: removeFirst q r
  end.

Definition removeAttribute (qualifiedName : string) (l : list Attr) : list Attr :=
  removeFirst (JS.asciiLowerCase qualifiedName) l.

(** [el.setAttribute(qualifiedName, v)]: the first attribute of that name
    gets the new value in place; without one, a new attribute is appended. *)
Fixpoint setFirst (q v : string) (l : list Attr) : list Attr :=
  match l with
  | [] => [mkAttr q v]
  | a :: r => if (name a =? q)%string then mkAttr (name a) v :: r else a :: setFirst q v r
  end.

Definition setAttribute (qualifiedName v : string) (l : list Attr) : list Attr :=
  setFirst (JS.asciiLowerCase qualifiedName) v l.

(** [el.getAttribute(qualifiedName)]. *)
Definition getAttribute (q : string) (l : list Attr) : option string :=
  option_map value (find (fun a => (name a =? q)%string) l).

(** ** The sanitizer *)

Definition ALLOWED_TAGS : gset string :=
  list_to_set
    ["p"; "br"; "hr"; "blockquote"; "ul"; "ol"; "li"; "b"; "strong"; "i"; "em"; "u";
     "code"; "pre"; "span"; "a"; "h1"; "h2"; "h3"; "h4"; "h5"; "h6"].

(** [set.has(x)]. *)
Definition has (s : gset string) (x : string) : bool := bool_decide (x ∈ s).

(** The test on the trimmed [href] value. *)
Definition hrefOk (v : string) : bool :=
  JS.startsWith v "http://" ||
  JS.startsWith v "https://" ||
  JS.startsWith v "mailto:" ||
  JS.startsWith v "/" ||
  JS.startsWith v "#".

(** One round of the loop [for (const a of attrs)]: [cur] is the attribute
    list of the element at that moment, [a] the attribute of the snapshot
    under inspection. *)
Definition visitAttr (tag : string) (cur : list Attr) (a : Attr) : list Attr :=
  let name_ := JS.toLowerCase (name a) in
  let value_ := value a in
  let isEvent := JS.startsWith name_ "on" in
  let isStyle := (name_ =? "style")%string in
  if isEvent || isStyle then removeAttribute (name a) cur
  else if (tag =? "a")%string then
    if (name_ =? "href")%string then
      let v := JS.trim value_ in
      if hrefOk v then cur else removeAttribute "href" cur
    else if (name_ =? "title")%string then cur
    else if (name_ =? "target")%string || (name_ =? "rel")%string then cur
    else removeAttribute (name a) cur
  else if (tag =? "span")%string then removeAttribute (name a) cur
  else removeAttribute (name a) cur.

(** The attribute list of a permitted element after the loop and the
    normalisation of [target] and [rel] on anchors. *)
Definition sanitizeAttrs (tag : string) (l : list Attr) : list Attr :=
  let l1 := fold_left (visitAttr tag) l l in
  if (tag =? "a")%string
  then setAttribute "rel" "noopener noreferrer" (setAttribute "target" "_blank" l1)
  else l1.

(** [walk(node)].  The first component is the node object itself after the
    call, the second what the parent's child list holds at its position:
    nothing for a removed comment, one text node for a replaced element,
    the node itself otherwise.  A removed or replaced node is detached from
    the tree but is not changed. *)
Fixpoint walk (node : Node) : Node * list Node :=
  match node with
  | Comment _ => (node, [])
  | Text _ => (node, [node])
  | Element l a cs =>
      let tag := JS.toLowerCase (tagName node) in
      if negb (has ALLOWED_TAGS tag) then (node, [Text (textContent node)])
      else
        let a' := sanitizeAttrs tag a in
        let cs' := flat_map (fun c => snd (walk c)) cs in
        let el := Element l a' cs' in
        (el, [el])
  end.

(** ** Documents *)

(** A document is the list of its children (comments and the document
    element). *)
Record Document : Type := mkDocument { docChildren : list Node }.

(** [document.documentElement]: the first element child. *)
Definition documentElement (doc : Document) : option Node :=
  find isElement (docChildren doc).

Definition isBodyOrFrameset (n : Node) : bool :=
  match n with
  | Element l _ _ => (l =? "body")%string || (l =? "frameset")%string
  | _ => false
  end.

(** [document.body]: the first child of the [html] element that is a [body]
    or a [frameset] element, [null] ([None]) without one. *)
Definition body (doc : Document) : option Node :=
  match documentElement doc with
  | Some (Element l _ cs) =>
      if (l =? "html")%string then find isBodyOrFrameset cs else None
  | _ => None
  end.

(** Reading a property of [null] throws. *)
Definition deref {A : Type} (o : option A) : Completion A :=
  match o with
  | Some a => Normal a
  | None => Throw
  end.

(** ** The classifier *)

Definition chLt : ascii := ascii_of_nat 60.
Definition chGt : ascii := ascii_of_nat 62.
Definition chSlash : ascii := ascii_of_nat 47.
Definition chLF : ascii := ascii_of_nat 10.
Definition chCR : ascii := ascii_of_nat 13.

(** The pattern [<\/?[a-z][\s\S]*>] of [looksLikeHtml]; it carries the flag
    [i]. *)
Definition htmlPattern : RegExp.Pattern :=
  RegExp.Seq (RegExp.Lit chLt)
    (RegExp.Seq (RegExp.Opt (RegExp.Lit chSlash))
       (RegExp.Seq (RegExp.Class [RegExp.Range "a" "z"])
          (RegExp.Seq (RegExp.Star (RegExp.Class [RegExp.Space; RegExp.NonSpace]))
             (RegExp.Lit chGt)))).

Definition looksLikeHtml (s : string) : bool := RegExp.test true htmlPattern s.

(** ** The plain-text fallback *)

(** The pattern [\r?\n] of the split, without flags. *)
Definition lineBreak : RegExp.Pattern :=
  RegExp.Seq (RegExp.Opt (RegExp.Lit chCR)) (RegExp.Lit chLF).

Definition consChar (c : ascii) (l : list string) : list string :=
  match l with
  | [] => [String c EmptyString]
  | x :: r => String c x :: r
  end.

(** [content.split(/\r?\n/)]: scanning from the left, a line feed, or a
    carriage return directly followed by a line feed, ends the current
    piece; the result has one piece more than there are separators. *)
Fixpoint splitLines (s : string) : list string :=
  match s with
  | EmptyString => [EmptyString]
  | String c r =>
      if Ascii.eqb c chLF then EmptyString :: splitLines r
      else
        match r with
        | String c2 r2 =>
            if Ascii.eqb c chCR && Ascii.eqb c2 chLF
            then EmptyString :: splitLines r2
            else consChar c (splitLines r)
        | EmptyString => consChar c (splitLines r)
        end
  end.

(** The predicate of the filter: [l.trim().length > 0]. *)
Definition nonBlank (l : string) : bool := (0 <? String.length (JS.trim l))%nat.

(** What a React element of the component holds: a string child, rendered
    as text, or an element with its key, class, injected markup
    ([dangerouslySetInnerHTML.__html]) and children. *)
Inductive ReactNode : Type :=
| RText (s : string)
| RElement (tag : string) (key : option nat) (className : option string)
    (dangerouslySetInnerHTML : option string) (children_ : list ReactNode).

Definition paragraph (idx : nat) (l : string) : ReactNode :=
  RElement "p" (Some idx) (Some "mb-2 last:mb-0") None [RText l].

(** The part of [RichText] after the markup branch. *)
Definition plainText (content : string) (className : option string) : ReactNode :=
  let lines := List.filter nonBlank (splitLines content) in
  if (length lines <=? 1)%nat
  then RElement "div" None className None [RText content]
  else RElement "div" None className None (imap paragraph lines).

Section Platform.

(** [new DOMParser().parseFromString(input, "text/html")]. *)
Variable parseFromString : string -> Completion Document.

(** The getter [element.innerHTML]. *)
Variable innerHTML : Node -> Completion string.

(** The body of the [try] block: [walk(body)] starts by reading
    [node.nodeType], which throws on [null]; the serialised node is the
    object [body] refers to, as [walk] left it. *)
Definition sanitizeHtml_try (input : string) : Completion string :=
  doc ← parseFromString input;
  body_ ← deref (body doc);
  let body' := fst (walk body_) in
  html ← innerHTML body';
  mret (if (html =? EmptyString)%string then EmptyString else html).

Definition sanitizeHtml (input : string) : Completion string :=
  tryCatch (sanitizeHtml_try input) (Normal EmptyString).

(** The component; [children_] and [className] are optional props. *)
Definition RichText (children_ : option string) (className : option string)
  : Completion ReactNode :=
  let content := default EmptyString children_ in
  if looksLikeHtml content then
    safe ← sanitizeHtml content;
    mret (RElement "div" None className (Some safe) [])
  else mret (plainText content className).

End Platform.

(** ** A browser for the examples

    The serialiser follows the fragment serialisation algorithm of the HTML
    standard.  The parser is a table: it lists, for the inputs used in this
    file, the document which the tree construction of the HTML standard
    builds; on any other input it answers with the document of a text
    without markup.  The statements that use the table use it at the listed
    inputs only. *)

Module Browser.

Definition dq : string := String (ascii_of_nat 34) EmptyString.
Definition lf : string := String chLF EmptyString.

(** Elements that serialise without content and end tag. *)
Definition isVoid (l : string) : bool :=
  existsb (String.eqb l)
    ["area"; "base"; "basefont"; "bgsound"; "br"; "col"; "embed"; "frame"; "hr";
     "img"; "input"; "keygen"; "link"; "meta"; "param"; "source"; "track"; "wbr"].

(** Elements whose text children are serialised as they are (scripting is
    disabled in a document made by [DOMParser]). *)
Definition isRawText (l : string) : bool :=
  existsb (String.eqb l)
    ["style"; "script"; "xmp"; "iframe"; "noembed"; "noframes"; "plaintext"].

Fixpoint escape (attributeMode : bool) (s : string) : string :=
  match s with
  | EmptyString => EmptyString
  | String c r =>
      let n := JS.code c in
      (if (n =? 38)%N then "&amp;"
       else if (n =? 160)%N then "&nbsp;"
       else if (n =? 60)%N then "&lt;"
       else if (n =? 62)%N then "&gt;"
       else if attributeMode && (n =? 34)%N then "&quot;"
       else String c EmptyString) +:+ escape attributeMode r
  end.

Definition serializeAttr (a : Attr) : string :=
  " " +:+ name a +:+ "=" +:+ dq +:+ escape true (value a) +:+ dq.

Fixpoint serializeNode (raw : bool) (n : Node) : string :=
  match n with
  | Text d => if raw then d else escape false d
  | Comment d => "<!--" +:+ d +:+ "-->"
  | Element l a cs =>
      "<" +:+ l +:+ JS.join (map serializeAttr a) +:+ ">" +:+
      (if isVoid l then EmptyString
       else JS.join (map (serializeNode (isRawText l)) cs) +:+ "</" +:+ l +:+ ">")
  end.

(** The getter [innerHTML]; it does not throw. *)
Definition innerHTML (n : Node) : Completion string :=
  Normal
    match n with
    | Element l _ cs =>
        if isVoid l then EmptyString
        else JS.join (map (serializeNode (isRawText l)) cs)
    | _ => EmptyString
    end.

(** The document [<html><head>h</head><body>b</body></html>]. *)
Definition htmlDocument (h b : list Node) : Document :=
  mkDocument [Element "html" [] [Element "head" [] h; Element "body" [] b]].

(** [<div onclick="x()">Hi</div>] *)
Definition inputDiv : string :=
  "<div onclick=" +:+ dq +:+ "x()" +:+ dq +:+ ">Hi</div>".
Definition docDiv : Document :=
  htmlDocument [] [Element "div" [mkAttr "onclick" "x()"] [Text "Hi"]].

(** [<p style="color:red" onclick="x()">Hi</p>] *)
Definition inputStyled : string :=
  "<p style=" +:+ dq +:+ "color:red" +:+ dq +:+ " onclick=" +:+ dq +:+ "x()" +:+ dq
  +:+ ">Hi</p>".
Definition docStyled : Document :=
  htmlDocument [] [Element "p" [mkAttr "style" "color:red"; mkAttr "onclick" "x()"] [Text "Hi"]].

(** [<a href="javascript:alert(1)" target="_self">click</a>] *)
Definition inputLink : string :=
  "<a href=" +:+ dq +:+ "javascript:alert(1)" +:+ dq +:+ " target=" +:+ dq +:+ "_self"
  +:+ dq +:+ ">click</a>".
Definition docLink : Document :=
  htmlDocument []
    [Element "a" [mkAttr "href" "javascript:alert(1)"; mkAttr "target" "_self"] [Text "click"]].

(** [<p>Hi<!--note--></p>] *)
Definition inputComment : string := "<p>Hi<!--note--></p>".
Definition docComment : Document :=
  htmlDocument [] [Element "p" [] [Text "Hi"; Comment "note"]].

(** [<script>alert(1)</script>Hi]: a leading script element belongs to the
    head, the text opens the body. *)
Definition inputScript : string := "<script>alert(1)</script>Hi".
Definition docScript : Document :=
  htmlDocument [Element "script" [] [Text "alert(1)"]] [Text "Hi"].

(** [<title>T</title><p>x</p>] *)
Definition inputTitle : string := "<title>T</title><p>x</p>".
Definition docTitle : Document :=
  htmlDocument [Element "title" [] [Text "T"]] [Element "p" [] [Text "x"]].

Definition inputParagraph : string := "<p>x</p>".
Definition docParagraph : Document :=
  htmlDocument [] [Element "p" [] [Text "x"]].

(** A line feed directly after the start tag of [pre] is dropped by the
    parser; the serialiser does not put one back. *)
Definition pre (n : nat) : string :=
  "<pre>" +:+ JS.join (repeat lf n) +:+ "x</pre>".
Definition docPre (n : nat) : Document :=
  htmlDocument [] [Element "pre" [] [Text (JS.join (repeat lf n) +:+ "x")]].

(** The content of [plaintext] runs to the end of the input: an end tag
    written by the serialiser is text for the parser. *)
Definition plaintext (n : nat) : string :=
  "<plaintext>a" +:+ JS.join (repeat "</plaintext>" n).
Definition docPlaintext (n : nat) : Document :=
  htmlDocument [] [Element "plaintext" [] [Text ("a" +:+ JS.join (repeat "</plaintext>" n))]].

(** [Hi<script>alert(1)</script>]: after text the script element belongs
    to the body. *)
Definition inputScriptInBody : string := "Hi<script>alert(1)</script>".
Definition docScriptInBody : Document :=
  htmlDocument [] [Text "Hi"; Element "script" [] [Text "alert(1)"]].

Definition samples : list (string * Document) :=
  [ (inputDiv, docDiv); (inputStyled, docStyled); (inputLink, docLink);
    (inputComment, docComment); (inputScript, docScript); (inputTitle, docTitle);
    (inputParagraph, docParagraph);
    (inputScriptInBody, docScriptInBody);
    (pre 3, docPre 2); (pre 2, docPre 1); (pre 1, docPre 0); (pre 0, docPre 0);
    (plaintext 0, docPlaintext 0); (plaintext 1, docPlaintext 1);
    (plaintext 2, docPlaintext 2) ].

Definition parseFromString (input : string) : Completion Document :=
  match find (fun p => (fst p =? input)%string) samples with
  | Some p => Normal (snd p)
  | None => Normal (htmlDocument [] [Text input])
  end.

(** A parser that always throws, and a serialiser that always throws. *)
Definition failingParser (input : string) : Completion Document := Throw.
Definition failingSerializer (n : Node) : Completion string := Throw.

End Browser.

(** ** Properties of a sanitized tree, as decidable predicates *)

(** The element [n] has a permitted tag. *)
Definition permitted (n : Node) : bool :=
  has ALLOWED_TAGS (JS.toLowerCase (tagName n)).

(** No element below [n] has a tag outside the permitted set. *)
Definition onlyPermittedElements (n : Node) : bool :=
  forallb (fun e => negb (isElement e) || permitted e) (descendants n).

(** The name of an event handler attribute, or [style]. *)
Definition isEventOrStyle (a : Attr) : bool :=
  JS.startsWith (JS.toLowerCase (name a)) "on" || (JS.toLowerCase (name a) =? "style")%string.

(** No element below [n] carries an event handler or a [style] attribute. *)
Definition noEventOrStyle (n : Node) : bool :=
  forallb (fun e => forallb (fun a => negb (isEventOrStyle a)) (attrs e)) (descendants n).

(** The three conditions on an anchor. *)
Definition safeAnchor (e : Node) : bool :=
  match getAttribute "href" (attrs e) with
  | Some v => hrefOk (JS.trim v)
  | None => true
  end
  && bool_decide (getAttribute "target" (attrs e) = Some "_blank")
  && bool_decide (getAttribute "rel" (attrs e) = Some "noopener noreferrer").

Definition isAnchor (e : Node) : bool :=
  isElement e && (JS.toLowerCase (tagName e) =? "a")%string.

(** Every anchor below [n] is safe. *)
Definition anchorsSafe (n : Node) : bool :=
  forallb (fun e => negb (isAnchor e) || safeAnchor e) (descendants n).

(** No comment node below [n]. *)
Definition noComments (n : Node) : bool :=
  forallb (fun e => negb (isComment e)) (descendants n).

(** A node that may stay in the tree: not a comment, and permitted when an
    element. *)
Definition mayStay (e : Node) : bool :=
  negb (isComment e) && (negb (isElement e) || permitted e).

(** The decision of the attribute loop for one attribute of an element with
    tag [tag]. *)
Definition keepAttr (tag : string) (a : Attr) : bool :=
  let name_ := JS.toLowerCase (name a) in
  negb (isEventOrStyle a) && (tag =? "a")%string &&
  (if (name_ =? "href")%string then hrefOk (JS.trim (value a))
   else (name_ =? "title")%string || (name_ =? "target")%string || (name_ =? "rel")%string).

(** An attribute list as the HTML parser builds it: the names are in ASCII
    lower case and no name occurs twice. *)
Definition parsedAttrs (l : list Attr) : Prop :=
  List.NoDup (map name l) /\ List.Forall (fun a => JS.asciiLowerCase (name a) = name a) l.

Definition parsedTree (n : Node) : Prop :=
  parsedAttrs (attrs n) /\ List.Forall (fun e => parsedAttrs (attrs e)) (descendants n).

(** The conditions on the attributes of one node. *)
Definition attrsOk (e : Node) : bool :=
  forallb (fun a => negb (isEventOrStyle a)) (attrs e) && (negb (isAnchor e) || safeAnchor e).

(** [needle] occurs in [s]. *)
Fixpoint includes (s needle : string) : bool :=
  String.prefix needle s ||
  match s with
  | EmptyString => false
  | String _ r => includes r needle
  end.

(** The tree that [sanitizeHtml] serialises: the object [doc.body] after
    [walk(body)]. *)
Definition sanitizedBody (doc : Document) : option Node :=
  option_map (fun b => fst (walk b)) (body doc).

(** The value of a completion that did not throw, the empty string
    otherwise. *)
Definition orEmpty (c : Completion string) : string :=
  match c with
  | Normal s => s
  | Throw => EmptyString
  end.

(** The machinery of a call fails: the parser throws, the document has no
    body (so that [walk] reads a property of [null]), or the serialiser
    throws on the body. *)
Definition machineryFails (parseFromString : string -> Completion Document)
    (innerHTML : Node -> Completion string) (input : string) : Prop :=
  parseFromString input = Throw \/
  (exists doc, parseFromString input = Normal doc /\ body doc = None) \/
  (exists doc b,
     parseFromString input = Normal doc /\ body doc = Some b /\
     innerHTML (fst (walk b)) = Throw).


(** ** The split, declaratively *)

Fixpoint hasLF (s : string) : bool :=
  match s with
  | EmptyString => false
  | String c r => Ascii.eqb c chLF || hasLF r
  end.

Fixpoint endsWithCR (s : string) : bool :=
  match s with
  | EmptyString => false
  | String c EmptyString => Ascii.eqb c chCR
  | String _ r => endsWithCR r
  end.

(** [Splits s pieces]: [s] is the pieces joined by separators, each a line
    feed or a carriage return with a line feed; no piece holds a line feed,
    and a carriage return before a line feed belongs to the separator. *)
Inductive Splits : string -> list string -> Prop :=
| SplitsLast l :
    hasLF l = false -> Splits l [l]
| SplitsLF l rest ls :
    hasLF l = false -> endsWithCR l = false -> Splits rest ls ->
    Splits (l +:+ String chLF rest) (l :: ls)
| SplitsCRLF l rest ls :
    hasLF l = false -> Splits rest ls ->
    Splits (l +:+ String chCR (String chLF rest)) (l :: ls).

(** A React tree injects markup when one of its elements sets
    [dangerouslySetInnerHTML]. *)
Fixpoint injectsMarkup (n : ReactNode) : bool :=
  match n with
  | RText _ => false
  | RElement _ _ _ h cs => bool_decide (h <> None) || existsb injectsMarkup cs
  end.

(** The strings a React tree renders as text, in order. *)
Fixpoint renderedText (n : ReactNode) : list string :=
  match n with
  | RText s => [s]
  | RElement _ _ _ _ cs => flat_map renderedText cs
  end.

(** A substring of the form the classifier looks for: [<], an optional
    [/], an ASCII letter, any characters, [>]. *)
Definition tagLike (s : string) : Prop :=
  exists before slash c mid after,
    s = before +:+ String chLt (slash +:+ String c (mid +:+ String chGt after)) /\
    (slash = EmptyString \/ slash = String chSlash EmptyString) /\
    JS.isAsciiLetter c = true.

(** ** The article page ([src/pages/ArticleJsonPage.tsx]) *)

(** [o || d] for an optional string [o]: an absent and an empty string are
    falsy. *)
Definition orElse (o : option string) (d : string) : string :=
  match o with
  | Some s => if (s =? EmptyString)%string then d else s
  | None => d
  end.

Definition truthy (o : option string) : bool :=
  match o with
  | Some s => negb (s =? EmptyString)%string
  | None => false
  end.

Module Article.

(** The payload of the article endpoint; every field is optional. *)
Record ArticleJson : Type := mkArticleJson {
  title : option string;
  author : option string;
  body : option string;
  country : option string;
  date : option string;
  description : option string;
  domain : option string;
  location : option string;
  reference1 : option string;
  reference2 : option string;
  references : option (list string);
  summary : option string;
  summery : option string;
  topic : option string
}.

End Article.

(** [data?.field] on the state [data : ArticleJson | null]. *)
Definition field {A : Type} (f : Article.ArticleJson -> option A)
    (data : option Article.ArticleJson) : option A :=
  match data with
  | Some d => f d
  | None => None
  end.

(** [data?.title || data?.topic || "News Article"]. *)
Definition headline (data : option Article.ArticleJson) : string :=
  orElse (field Article.title data) (orElse (field Article.topic data) "News Article").

Definition aiSummary (data : option Article.ArticleJson) : string :=
  let raw :=
    JS.trim (orElse (field Article.summary data)
               (orElse (field Article.summery data) EmptyString)) in
  if negb (raw =? EmptyString)%string then raw
  else JS.trim (orElse (field Article.description data) EmptyString).

(** [list.includes(r)]. *)
Definition listIncludes (l : list string) (r : string) : bool :=
  existsb (fun x => (x =? r)%string) l.

(** [if (o) list.push(o)]. *)
Definition pushIfTruthy (l : list string) (o : option string) : list string :=
  match o with
  | Some s => if (s =? EmptyString)%string then l else l ++ [s]
  | None => l
  end.

(** One round of the [forEach] over [references]. *)
Definition pushNew (l : list string) (r : string) : list string :=
  if negb (r =? EmptyString)%string && negb (listIncludes l r) then l ++ [r] else l.

Definition sources (data : option Article.ArticleJson) : list string :=
  let list0 := pushIfTruthy [] (field Article.reference1 data) in
  let list1 := pushIfTruthy list0 (field Article.reference2 data) in
  let list2 := fold_left pushNew (default [] (field Article.references data)) list1 in
  firstn 2 list2.

Definition stopWords : gset string :=
  list_to_set
    ["the"; "a"; "an"; "and"; "or"; "but"; "in"; "on"; "at"; "to"; "for"; "of"; "with";
     "by"; "from"; "as"; "is"; "was"; "are"; "were"; "been"; "be"; "have"; "has";
     "had"; "do"; "does"; "did"; "will"; "would"; "could"; "should"; "may"; "might";
     "must"; "shall"; "can"; "that"; "this"; "these"; "those"; "it"; "its"; "they";
     "their"; "them"; "we"; "our"; "you"; "your"; "he"; "she"; "his"; "her"; "him";
     "who"; "what"; "which"; "when"; "where"; "why"; "how"; "all"; "each"; "every";
     "both"; "few"; "more"; "most"; "other"; "some"; "such"; "no"; "nor"; "not";
     "only"; "own"; "same"; "so"; "than"; "too"; "very"; "just"; "also"].

(** [replace(/[^a-z\s]/g, " ")] on one code unit. *)
Definition wordChar (c : ascii) : ascii :=
  if JS.isAsciiLower c || JS.isWhiteSpace c then c else ascii_of_nat 32.

(** [s.split(/\s+/)]: a maximal run of white space ends the current piece;
    [inRun] tells that the previous code unit was white space. *)
Fixpoint splitSpacesFrom (inRun : bool) (s : string) : list string :=
  match s with
  | EmptyString => [EmptyString]
  | String c r =>
      if JS.isWhiteSpace c
      then if inRun then splitSpacesFrom true r else EmptyString :: splitSpacesFrom true r
      else consChar c (splitSpacesFrom false r)
  end.

Definition splitSpaces (s : string) : list string := splitSpacesFrom false s.

(** The predicate of the filter: [w.length > 3 && !stopWords.has(w)]. *)
Definition isKeyword (w : string) : bool :=
  (3 <? String.length w)%nat && negb (has stopWords w).

(** The words counted by [keywords] (the constant [text] of the source). *)
Definition keywordTokens (data : option Article.ArticleJson) : list string :=
  let text :=
    headline data +:+ " " +:+ orElse (field Article.topic data) EmptyString +:+ " "
    +:+ orElse (field Article.body data) EmptyString in
  List.filter isKeyword (splitSpaces (JS.map_string wordChar (JS.toLowerCase text))).

(** [freq[w] = (freq[w] || 0) + 1] on the entries of [freq] in insertion
    order. *)
Fixpoint bump (w : string) (freq : list (string * nat)) : list (string * nat) :=
  match freq with
  | [] => [(w, 1)]
  | e :: r => if (fst e =? w)%string then (fst e, S (snd e)) :: r else e :: bump w r
  end.

Definition countWords (ws : list string) : list (string * nat) :=
  fold_left (fun freq w => bump w freq) ws [].

(** [entries.sort((a, b) => b[1] - a[1])]: the sort of the language is
    stable, so the result is the stable sort by descending count; it is
    computed here by insertion. *)
Fixpoint insertDesc (x : string * nat) (l : list (string * nat)) : list (string * nat) :=
  match l with
  | [] => [x]
  | y :: r => if (snd x <? snd y)%nat then y :: insertDesc x r else x :: y :: r
  end.

Fixpoint sortDesc (l : list (string * nat)) : list (string * nat) :=
  match l with
  | [] => []
  | x :: r => insertDesc x (sortDesc r)
  end.

(** [w.charAt(0).toUpperCase() + w.slice(1)]; the words are made of a-z, on
    which [toUpperCase] is the ASCII upper-casing. *)
Definition capitalize (w : string) : string :=
  match w with
  | EmptyString => EmptyString
  | String c r => String (JS.asciiUpperChar c) r
  end.

(** The twelve most frequent words before capitalisation. *)
Definition topWords (ws : list string) : list string :=
  map fst (firstn 12 (sortDesc (countWords ws))).

(** [keywords].  The object [freq] inherits the property [constructor]: on
    that word [freq[w] || 0] is a function, the count becomes a string and
    the comparator yields NaN, so that the order is left to the engine; the
    model gives no result there. *)
Definition keywords (data : option Article.ArticleJson) : option (list string) :=
  let ws := keywordTokens data in
  if listIncludes ws "constructor" then None
  else Some (map capitalize (topWords ws)).

(** [body.split("\n\n")]: two line feeds end the current piece. *)
Fixpoint splitBlank (s : string) : list string :=
  match s with
  | EmptyString => [EmptyString]
  | String c r =>
      match r with
      | String c2 r2 =>
          if Ascii.eqb c chLF && Ascii.eqb c2 chLF
          then EmptyString :: splitBlank r2
          else consChar c (splitBlank r)
      | EmptyString => consChar c (splitBlank r)
      end
  end.

(** [pieces.join(sep)]. *)
Fixpoint joinWith (sep : string) (pieces : list string) : string :=
  match pieces with
  | [] => EmptyString
  | [x] => x
  | x :: r => x +:+ sep +:+ joinWith sep r
  end.

Definition blankLine : string := String chLF (String chLF EmptyString).

(** The paragraphs of the article body: [data?.body &&
    data.body.split("\n\n").map(...)]. *)
Definition bodyParagraphs (data : option Article.ArticleJson) : list string :=
  match field Article.body data with
  | Some b => if (b =? EmptyString)%string then [] else splitBlank b
  | None => []
  end.

(** ** The chatbot ([src/components/Chatbot.tsx]) *)

Module Api.

(** An item of a backend answer; [score], a number the code below does not
    read, is left out. *)
Record ApiItem : Type := mkApiItem {
  domain : option string;
  id : option string;
  references : option (list string);
  summary : option string;
  title : option string;
  topic : option string
}.

End Api.

(** [(o || EMPTY).trim().toLowerCase()], [EMPTY] the empty string. *)
Definition normDomain (o : option string) : string :=
  JS.toLowerCase (JS.trim (orElse o EmptyString)).

(** [headlineItems] of [ApiResultView]; [items] is [None] when [data.items]
    is not an array. *)
Definition headlineItems (dataDomain : option string) (dataItems : option (list Api.ApiItem))
  : list Api.ApiItem :=
  let items := default [] dataItems in
  let queryDomain := normDomain dataDomain in
  let domainFiltered :=
    if negb (queryDomain =? EmptyString)%string && negb (queryDomain =? "other")%string
    then List.filter (fun it => (normDomain (Api.domain it) =? queryDomain)%string) items
    else items in
  firstn 3 (if (0 <? length domainFiltered)%nat then domainFiltered else items).

(** ** Further predicates *)

(** [c] occurs in [s]. *)
Fixpoint hasChar (c : ascii) (s : string) : bool :=
  match s with
  | EmptyString => false
  | String d r => Ascii.eqb d c || hasChar c r
  end.

(** The number of line feeds of [s]. *)
Fixpoint countLF (s : string) : nat :=
  match s with
  | EmptyString => 0
  | String c r => (if Ascii.eqb c chLF then 1 else 0) + countLF r
  end.

(** Every code unit of [s] is below 128. *)
Fixpoint allAscii (s : string) : bool :=
  match s with
  | EmptyString => true
  | String c r => (JS.code c <? 128)%N && allAscii r
  end.

(** Every code unit of [s] is one of a-z. *)
Fixpoint allLower (s : string) : bool :=
  match s with
  | EmptyString => true
  | String c r => JS.isAsciiLower c && allLower r
  end.

(** The names an anchor may keep. *)
Definition anchorAttrNames : list string := ["href"; "title"; "target"; "rel"].

(** The number of occurrences of [w] in [ws]. *)
Definition occurrences (w : string) (ws : list string) : nat :=
  length (List.filter (fun x => (x =? w)%string) ws).

(** The words of [ws] in the order of their first occurrence. *)
Fixpoint firstOccurrences (ws : list string) : list string :=
  match ws with
  | [] => []
  | w :: r => w :: List.filter (fun x => negb (x =? w)%string) (firstOccurrences r)
  end.

(** An article and the items of an answer for the examples. *)
Definition sampleArticle : option Article.ArticleJson :=
  Some (Article.mkArticleJson
          (Some "AI chips and the chips market: chips!") None
          (Some "Chips are great. Markets love chips; the market is big.")
          None None None None None (Some "http://a") (Some "http://a")
          (Some ["http://b"; "http://a"]) None None None).

Definition sampleItems : list Api.ApiItem :=
  [ Api.mkApiItem (Some "Sports") (Some "1") None None (Some "Cup final") None;
    Api.mkApiItem (Some " politics ") (Some "2") None None (Some "Vote") None;
    Api.mkApiItem (Some "Politics") (Some "3") None None (Some "Budget") None ].

(** ** Further notions for the statements *)


(** [s] consists of white space only (the empty string included). *)
Fixpoint onlyWhiteSpace (s : string) : bool :=
  match s with
  | EmptyString => true
  | String c r => JS.isWhiteSpace c && onlyWhiteSpace r
  end.

(** [s] holds two line feeds in a row. *)
Fixpoint hasBlank (s : string) : bool :=
  match s with
  | EmptyString => false
  | String c r =>
      match r with
      | EmptyString => false
      | String c2 _ => (Ascii.eqb c chLF && Ascii.eqb c2 chLF) || hasBlank r
      end
  end.

Fixpoint endsWithLF (s : string) : bool :=
  match s with
  | EmptyString => false
  | String c EmptyString => Ascii.eqb c chLF
  | String _ r => endsWithLF r
  end.

(** [SplitsBlank s pieces]: [s] is the pieces joined by double line feeds,
    cut at the first double line feed from the left each time: no piece
    holds a double line feed, and a piece before a cut does not end with a
    line feed (that line feed would open the separator). *)
Inductive SplitsBlank : string -> list string -> Prop :=
| SplitsBlankLast l :
    hasBlank l = false -> SplitsBlank l [l]
| SplitsBlankCut l rest ls :
    hasBlank l = false -> endsWithLF l = false -> SplitsBlank rest ls ->
    SplitsBlank (l +:+ String chLF (String chLF rest)) (l :: ls).

(** * Lemmas and theorems *)

Open Scope list_scope.

(** ** Strings *)

Lemma app_nil_l (s : string) : EmptyString +:+ s = s.
Proof. reflexivity. Qed.

Lemma app_cons (c : ascii) (s t : string) : String c s +:+ t = String c (s +:+ t).
Proof. reflexivity. Qed.

Lemma app_nil_r (s : string) : s +:+ EmptyString = s.
Proof. induction s as [|c s IH]; [reflexivity|]. rewrite app_cons, IH. reflexivity. Qed.

Lemma app_assoc (s t u : string) : (s +:+ t) +:+ u = s +:+ (t +:+ u).
Proof. induction s as [|c s IH]; [reflexivity|]. rewrite !app_cons, IH. reflexivity. Qed.

Lemma app_eq_nil (s t : string) : s +:+ t = EmptyString -> s = EmptyString /\ t = EmptyString.
Proof. destruct s; [rewrite app_nil_l; auto | rewrite app_cons; discriminate]. Qed.

(** ** The root of the walk *)

(** [document.body] is a [body] or a [frameset] element. *)
Lemma body_isBodyOrFrameset (doc : Document) (b : Node) :
  body doc = Some b -> isBodyOrFrameset b = true.
Proof.
  unfold body. destruct (documentElement doc) as [[l a cs| |]|]; try discriminate.
  destruct (l =? "html")%string; [|discriminate].
  intros H. apply find_some in H. tauto.
Qed.

(** Neither tag is permitted, so [walk] replaces the node in its parent and
    returns: the node object itself keeps its attributes and children. *)
Lemma walk_root_unchanged (b : Node) :
  isBodyOrFrameset b = true -> fst (walk b) = b.
Proof.
  destruct b as [l a cs| |]; simpl; try discriminate.
  intros H. apply orb_true_iff in H.
  destruct H as [H|H]; apply String.eqb_eq in H; subst l; reflexivity.
Qed.

Lemma sanitizedBody_is_body (doc : Document) : sanitizedBody doc = body doc.
Proof.
  unfold sanitizedBody. destruct (body doc) as [b|] eqn:E; [|reflexivity].
  simpl. f_equal. apply walk_root_unchanged. eapply body_isBodyOrFrameset; eauto.
Qed.

Section PlatformFacts.

Variable parseFromString : string -> Completion Document.
Variable innerHTML : Node -> Completion string.

(** [sanitizeHtml] returns the serialisation of [doc.body] as the parser
    built it. *)
Lemma sanitizeHtml_unfold (input : string) (doc : Document) :
  parseFromString input = Normal doc ->
  sanitizeHtml parseFromString innerHTML input =
    Normal match body doc with
           | Some b => orEmpty (innerHTML b)
           | None => EmptyString
           end.
Proof.
  intros Hp. unfold sanitizeHtml, sanitizeHtml_try. rewrite Hp. simpl.
  destruct (body doc) as [b|] eqn:Hb; simpl; [|reflexivity].
  rewrite (walk_root_unchanged b) by (eapply body_isBodyOrFrameset; eauto).
  destruct (innerHTML b) as [s|]; simpl; [|reflexivity].
  destruct (String.eqb_spec s EmptyString) as [->|]; reflexivity.
Qed.

Lemma sanitizeHtml_returns (input : string) :
  exists s, sanitizeHtml parseFromString innerHTML input = Normal s.
Proof.
  unfold sanitizeHtml.
  destruct (sanitizeHtml_try parseFromString innerHTML input); simpl; eauto.
Qed.

End PlatformFacts.

(** ** Regular expressions: the matcher decides the language *)

Module RegExpFacts.
Import RegExp.

Lemma seq_inv (i : bool) (r1 r2 : Pattern) (s : string) :
  Matches i (Seq r1 r2) s ->
  exists u v, s = u +:+ v /\ Matches i r1 u /\ Matches i r2 v.
Proof. intros H. inversion H; subst. eauto. Qed.

Lemma alt_inv (i : bool) (r1 r2 : Pattern) (s : string) :
  Matches i (Alt r1 r2) s -> Matches i r1 s \/ Matches i r2 s.
Proof. intros H. inversion H; subst; auto. Qed.

Lemma lit_inv (i : bool) (c : ascii) (s : string) :
  Matches i (Lit c) s -> exists ch, s = String ch EmptyString /\ litMatches i c ch = true.
Proof. intros H. inversion H; subst. eauto. Qed.

Lemma class_inv (i : bool) (l : list ClassAtom) (s : string) :
  Matches i (Class l) s -> exists ch, s = String ch EmptyString /\ classMatches i l ch = true.
Proof. intros H. inversion H; subst. eauto. Qed.

Lemma nullable_spec (i : bool) (r : Pattern) :
  nullable r = true <-> Matches i r EmptyString.
Proof.
  induction r as [| |c|l|r1 IH1 r2 IH2|r1 IH1 r2 IH2|r IH]; simpl.
  - split; [discriminate | intros H; inversion H].
  - split; [constructor | reflexivity].
  - split; [discriminate | intros H; inversion H].
  - split; [discriminate | intros H; inversion H].
  - rewrite andb_true_iff, IH1, IH2. split.
    + intros [H1 H2]. exact (MSeq i _ _ _ _ H1 H2).
    + intros H. apply seq_inv in H as (u & v & E & Hu & Hv).
      symmetry in E. apply app_eq_nil in E as [-> ->]. auto.
  - rewrite orb_true_iff, IH1, IH2. split.
    + intros [H|H]; [apply MAltL | apply MAltR]; assumption.
    + intros H. apply alt_inv in H. exact H.
  - split; [constructor | reflexivity].
Qed.

(** A non-empty word of a starred pattern starts with a non-empty word of
    the pattern. *)
Lemma star_cons_inv (i : bool) (r : Pattern) (ch : ascii) (s : string) :
  Matches i (Star r) (String ch s) ->
  exists u v, s = u +:+ v /\ Matches i r (String ch u) /\ Matches i (Star r) v.
Proof.
  intros H. remember (Star r) as p eqn:Ep. remember (String ch s) as w eqn:Ew.
  revert s Ew. induction H as [| | | | | | |r0 u v Hu _ Hv IHv]; intros s Ew; try discriminate.
  injection Ep as ->. destruct u as [|c u].
  - rewrite app_nil_l in Ew. apply IHv; auto.
  - rewrite app_cons in Ew. injection Ew as -> <-. exists u, v. auto.
Qed.

Lemma deriv_spec (i : bool) (ch : ascii) (r : Pattern) (s : string) :
  Matches i (deriv i ch r) s <-> Matches i r (String ch s).
Proof.
  revert s. induction r as [| |c|l|r1 IH1 r2 IH2|r1 IH1 r2 IH2|r IH]; intros s; simpl.
  - split; intros H; inversion H.
  - split; intros H; inversion H.
  - destruct (litMatches i c ch) eqn:E; split; intros H; inversion H; subst.
    + constructor; assumption.
    + constructor.
    + congruence.
  - destruct (classMatches i l ch) eqn:E; split; intros H; inversion H; subst.
    + constructor; assumption.
    + constructor.
    + congruence.
  - assert (Hfwd : Matches i (Seq (deriv i ch r1) r2) s -> Matches i (Seq r1 r2) (String ch s)).
    { intros H. apply seq_inv in H as (u & v & -> & Hu & Hv).
      apply IH1 in Hu. rewrite <- app_cons. constructor; assumption. }
    assert (Hbwd : Matches i (Seq r1 r2) (String ch s) ->
                   Matches i (Seq (deriv i ch r1) r2) s \/
                   (nullable r1 = true /\ Matches i (deriv i ch r2) s)).
    { intros H. apply seq_inv in H as (u & v & E & Hu & Hv).
      destruct u as [|c u].
      - rewrite app_nil_l in E. subst v. right. split.
        + apply (nullable_spec i). assumption.
        + apply IH2. assumption.
      - rewrite app_cons in E. injection E as <- ->. left.
        constructor; [apply IH1|]; assumption. }
    destruct (nullable r1) eqn:N; split; intros H.
    + apply alt_inv in H as [H|H]; [auto|].
      apply IH2 in H. rewrite <- (app_nil_l (String ch s)).
      constructor; [apply (nullable_spec i)|]; assumption.
    + destruct (Hbwd H) as [H'|[_ H']]; [apply MAltL | apply MAltR]; assumption.
    + auto.
    + destruct (Hbwd H) as [H'|[? _]]; [assumption | discriminate].
  - split; intros H.
    + apply alt_inv in H as [H|H]; [apply MAltL, IH1 | apply MAltR, IH2]; assumption.
    + apply alt_inv in H as [H|H]; [apply MAltL, IH1 | apply MAltR, IH2]; assumption.
  - split; intros H.
    + apply seq_inv in H as (u & v & -> & Hu & Hv).
      apply IH in Hu. rewrite <- app_cons. constructor; assumption.
    + apply star_cons_inv in H as (u & v & -> & Hu & Hv).
      constructor; [apply IH|]; assumption.
Qed.

(** [matchesPrefix] finds a prefix in the language. *)
Lemma matchesPrefix_spec (i : bool) (r : Pattern) (s : string) :
  matchesPrefix i r s = true <-> exists u v, s = u +:+ v /\ Matches i r u.
Proof.
  revert r. induction s as [|ch s IH]; intros r; simpl.
  - rewrite orb_false_r, (nullable_spec i). split.
    + intros H. exists EmptyString, EmptyString. auto.
    + intros (u & v & E & H). symmetry in E. apply app_eq_nil in E as [-> _]. assumption.
  - rewrite orb_true_iff, (nullable_spec i), IH. split.
    + intros [H|(u & v & -> & H)].
      * exists EmptyString, (String ch s). auto.
      * exists (String ch u), v. split; [reflexivity | apply deriv_spec; assumption].
    + intros (u & v & E & H). destruct u as [|c u].
      * left. assumption.
      * rewrite app_cons in E. injection E as <- ->. right.
        exists u, v. split; [reflexivity | apply deriv_spec; assumption].
Qed.

(** [test] finds a substring in the language. *)
Lemma test_spec (i : bool) (r : Pattern) (s : string) :
  test i r s = true <-> exists p u v, s = p +:+ (u +:+ v) /\ Matches i r u.
Proof.
  induction s as [|ch s IH]; cbn [test].
  - rewrite orb_false_r, matchesPrefix_spec. split.
    + intros (u & v & E & H). exists EmptyString, u, v. auto.
    + intros (p & u & v & E & H). symmetry in E.
      apply app_eq_nil in E as [-> E]. exists u, v. auto.
  - rewrite orb_true_iff, matchesPrefix_spec, IH. split.
    + intros [(u & v & E & H)|(p & u & v & -> & H)].
      * exists EmptyString, u, v. auto.
      * exists (String ch p), u, v. auto.
    + intros (p & u & v & E & H). destruct p as [|c p].
      * left. exists u, v. auto.
      * rewrite app_cons in E. injection E as <- ->. right. exists p, u, v. auto.
Qed.

End RegExpFacts.

(** ** The classifier *)

Ltac each_char ch :=
  destruct ch as [[] [] [] [] [] [] [] []]; vm_compute; reflexivity.

(** Under the flag [i] the three literals of the pattern match themselves
    only, the class [a-z] matches the ASCII letters and [\s\S] matches every
    code unit. *)
Lemma litMatches_lt (ch : ascii) : RegExp.litMatches true chLt ch = Ascii.eqb chLt ch.
Proof. each_char ch. Qed.

Lemma litMatches_slash (ch : ascii) : RegExp.litMatches true chSlash ch = Ascii.eqb chSlash ch.
Proof. each_char ch. Qed.

Lemma litMatches_gt (ch : ascii) : RegExp.litMatches true chGt ch = Ascii.eqb chGt ch.
Proof. each_char ch. Qed.

Lemma classMatches_letter (ch : ascii) :
  RegExp.classMatches true [RegExp.Range "a" "z"] ch = JS.isAsciiLetter ch.
Proof. each_char ch. Qed.

Lemma classMatches_any (ch : ascii) :
  RegExp.classMatches true [RegExp.Space; RegExp.NonSpace] ch = true.
Proof. each_char ch. Qed.

Lemma star_any (mid : string) :
  RegExp.Matches true (RegExp.Star (RegExp.Class [RegExp.Space; RegExp.NonSpace])) mid.
Proof.
  induction mid as [|c mid IH]; [constructor|].
  change (String c mid) with (String c EmptyString +:+ mid).
  constructor; [|assumption]. constructor. apply classMatches_any.
Qed.

(** The words of the pattern of [looksLikeHtml]. *)
Lemma htmlPattern_spec (u : string) :
  RegExp.Matches true htmlPattern u <->
  exists slash c mid,
    u = String chLt (slash +:+ String c (mid +:+ String chGt EmptyString)) /\
    (slash = EmptyString \/ slash = String chSlash EmptyString) /\
    JS.isAsciiLetter c = true.
Proof.
  unfold htmlPattern. split.
  - intros H.
    apply RegExpFacts.seq_inv in H as (u1 & r1 & -> & H1 & H).
    apply RegExpFacts.seq_inv in H as (u2 & r2 & -> & H2 & H).
    apply RegExpFacts.seq_inv in H as (u3 & r3 & -> & H3 & H).
    apply RegExpFacts.seq_inv in H as (u4 & u5 & -> & H4 & H5).
    apply RegExpFacts.lit_inv in H1 as (c1 & -> & E1).
    apply RegExpFacts.class_inv in H3 as (c3 & -> & E3).
    apply RegExpFacts.lit_inv in H5 as (c5 & -> & E5).
    rewrite litMatches_lt in E1. apply Ascii.eqb_eq in E1. subst c1.
    rewrite litMatches_gt in E5. apply Ascii.eqb_eq in E5. subst c5.
    rewrite classMatches_letter in E3.
    exists u2, c3, u4. split; [reflexivity|]. split; [|assumption].
    apply RegExpFacts.alt_inv in H2 as [H2|H2].
    + apply RegExpFacts.lit_inv in H2 as (c2 & -> & E2).
      rewrite litMatches_slash in E2. apply Ascii.eqb_eq in E2. subst c2. auto.
    + inversion H2. auto.
  - intros (slash & c & mid & -> & Hs & Hc).
    change (String chLt (slash +:+ String c (mid +:+ String chGt EmptyString)))
      with (String chLt EmptyString +:+
              (slash +:+ (String c EmptyString +:+ (mid +:+ String chGt EmptyString)))).
    constructor; [constructor; rewrite litMatches_lt; apply Ascii.eqb_refl|].
    constructor.
    { destruct Hs as [->| ->].
      - apply RegExp.MAltR. constructor.
      - apply RegExp.MAltL. constructor. rewrite litMatches_slash. apply Ascii.eqb_refl. }
    constructor; [constructor; rewrite classMatches_letter; assumption|].
    constructor; [apply star_any|].
    constructor. rewrite litMatches_gt. apply Ascii.eqb_refl.
Qed.

Lemma looksLikeHtml_tagLike (s : string) : looksLikeHtml s = true <-> tagLike s.
Proof.
  unfold looksLikeHtml, tagLike. rewrite RegExpFacts.test_spec. split.
  - intros (p & u & v & -> & H).
    apply htmlPattern_spec in H as (slash & c & mid & -> & Hs & Hc).
    exists p, slash, c, mid, v. split; [|split; assumption].
    rewrite !app_cons, !app_assoc, !app_cons, !app_assoc. reflexivity.
  - intros (p & slash & c & mid & v & -> & Hs & Hc).
    exists p, (String chLt (slash +:+ String c (mid +:+ String chGt EmptyString))), v.
    split.
    + rewrite !app_cons, !app_assoc, !app_cons, !app_assoc. reflexivity.
    + apply htmlPattern_spec. exists slash, c, mid. auto.
Qed.

(** ** The split *)

Lemma splitLines_LF (r : string) :
  splitLines (String chLF r) = EmptyString :: splitLines r.
Proof. reflexivity. Qed.

Lemma splitLines_CRLF (r : string) :
  splitLines (String chCR (String chLF r)) = EmptyString :: splitLines r.
Proof. reflexivity. Qed.

(** Any other code unit joins the first piece of the rest. *)
Lemma splitLines_other (c : ascii) (r : string) :
  Ascii.eqb c chLF = false ->
  (Ascii.eqb c chCR = false \/ forall r2, r <> String chLF r2) ->
  splitLines (String c r) = consChar c (splitLines r).
Proof.
  intros Hc Hcr. cbn [splitLines]. rewrite Hc.
  destruct r as [|c2 r2]; [reflexivity|].
  destruct Hcr as [Hcr|Hcr]; [rewrite Hcr; reflexivity|].
  destruct (Ascii.eqb_spec c2 chLF) as [->|Hne].
  - destruct (Hcr r2). reflexivity.
  - rewrite andb_false_r. reflexivity.
Qed.

Lemma hasLF_head (l : string) (r2 : string) : hasLF l = false -> l <> String chLF r2.
Proof. intros H ->. discriminate. Qed.

Lemma hasLF_app_head (l : string) (c : ascii) (r r2 : string) :
  hasLF l = false -> Ascii.eqb c chLF = false -> l +:+ String c r <> String chLF r2.
Proof.
  intros Hl Hc. destruct l as [|d l].
  - rewrite app_nil_l. intros E. injection E as -> _. discriminate.
  - rewrite app_cons. intros E. injection E as -> _. discriminate.
Qed.

Lemma hasLF_false_splitLines (l : string) : hasLF l = false -> splitLines l = [l].
Proof.
  induction l as [|c l IH]; [reflexivity|]. simpl hasLF.
  intros H. apply orb_false_iff in H as [Hc Hl].
  rewrite splitLines_other, IH; auto.
  right. intros r2. apply hasLF_head. assumption.
Qed.

Lemma splitLines_app_LF (l rest : string) :
  hasLF l = false -> endsWithCR l = false ->
  splitLines (l +:+ String chLF rest) = l :: splitLines rest.
Proof.
  induction l as [|c l IH]; [intros; apply splitLines_LF|].
  simpl hasLF. intros H He. apply orb_false_iff in H as [Hc Hl].
  rewrite app_cons, splitLines_other; auto.
  - rewrite IH; auto. destruct l; [reflexivity | exact He].
  - destruct l as [|d l].
    + left. exact He.
    + right. intros r2. rewrite app_cons. intros E. injection E as -> _. discriminate.
Qed.

Lemma splitLines_app_CRLF (l rest : string) :
  hasLF l = false ->
  splitLines (l +:+ String chCR (String chLF rest)) = l :: splitLines rest.
Proof.
  induction l as [|c l IH]; [intros; apply splitLines_CRLF|].
  simpl hasLF. intros H. apply orb_false_iff in H as [Hc Hl].
  rewrite app_cons, splitLines_other; auto.
  - rewrite IH; auto.
  - right. intros r2. apply hasLF_app_head; auto.
Qed.

(** The relation determines the pieces. *)
Lemma Splits_unique (s : string) (ls : list string) :
  Splits s ls -> ls = splitLines s.
Proof.
  induction 1 as [l Hl|l rest ls Hl He _ IH|l rest ls Hl _ IH].
  - symmetry. apply hasLF_false_splitLines. assumption.
  - rewrite splitLines_app_LF, IH; auto.
  - rewrite splitLines_app_CRLF, IH; auto.
Qed.

Lemma Splits_consChar (c : ascii) (r : string) (ls : list string) :
  Ascii.eqb c chLF = false ->
  (Ascii.eqb c chCR = false \/ forall r2, r <> String chLF r2) ->
  Splits r ls -> Splits (String c r) (consChar c ls).
Proof.
  intros Hc Hcr H. destruct H as [l Hl|l rest ls Hl He H|l rest ls Hl H]; simpl consChar.
  - apply SplitsLast. simpl. rewrite Hc, Hl. reflexivity.
  - rewrite <- app_cons. apply SplitsLF; auto.
    + simpl. rewrite Hc, Hl. reflexivity.
    + destruct l as [|d l]; [|exact He].
      destruct Hcr as [Hcr|Hcr]; [exact Hcr|].
      destruct (Hcr rest). reflexivity.
  - rewrite <- app_cons. apply SplitsCRLF; auto.
    simpl. rewrite Hc, Hl. reflexivity.
Qed.

Lemma splitLines_Splits_bounded (n : nat) (s : string) :
  String.length s <= n -> Splits s (splitLines s).
Proof.
  revert s. induction n as [|n IH]; intros s Hn.
  - destruct s; [|simpl in Hn; lia]. apply SplitsLast. reflexivity.
  - destruct s as [|c r]; [apply SplitsLast; reflexivity|].
    simpl in Hn. destruct (Ascii.eqb c chLF) eqn:Hc.
    + apply Ascii.eqb_eq in Hc. subst c. rewrite splitLines_LF.
      apply (SplitsLF EmptyString); auto. apply IH. lia.
    + destruct r as [|c2 r2].
      { cbn [splitLines]. rewrite Hc. apply SplitsLast. simpl. rewrite Hc. reflexivity. }
      destruct (Ascii.eqb c chCR && Ascii.eqb c2 chLF) eqn:Hcr.
      * apply andb_true_iff in Hcr as [H1 H2].
        apply Ascii.eqb_eq in H1, H2. subst c c2. rewrite splitLines_CRLF.
        apply (SplitsCRLF EmptyString); auto. apply IH. simpl in Hn. lia.
      * assert (Hside : Ascii.eqb c chCR = false \/ forall r0, String c2 r2 <> String chLF r0).
        { apply andb_false_iff in Hcr as [H|H]; [left; exact H|].
          right. intros r0 E. injection E as -> _. rewrite Ascii.eqb_refl in H. discriminate. }
        rewrite splitLines_other; auto.
        apply Splits_consChar; auto. apply IH. lia.
Qed.

(** [splitLines] computes the pieces of the relation. *)
Lemma splitLines_Splits (s : string) : Splits s (splitLines s).
Proof. apply (splitLines_Splits_bounded (String.length s)). lia. Qed.

(** The separators are the words of the pattern of the split. *)
Lemma litMatches_exact (c ch : ascii) : RegExp.litMatches false c ch = Ascii.eqb c ch.
Proof.
  unfold RegExp.litMatches, RegExp.canonicalize, JS.code. cbn [negb].
  destruct (Ascii.eqb_spec c ch) as [->|Hne]; [apply N.eqb_refl|].
  apply N.eqb_neq. intros E. apply Hne.
  rewrite <- (ascii_N_embedding c), <- (ascii_N_embedding ch), E. reflexivity.
Qed.

Lemma lineBreak_spec (u : string) :
  RegExp.Matches false lineBreak u <->
  u = String chLF EmptyString \/ u = String chCR (String chLF EmptyString).
Proof.
  unfold lineBreak. split.
  - intros H. apply RegExpFacts.seq_inv in H as (u1 & u2 & -> & H1 & H2).
    apply RegExpFacts.lit_inv in H2 as (c2 & -> & E2).
    rewrite litMatches_exact in E2. apply Ascii.eqb_eq in E2. subst c2.
    apply RegExpFacts.alt_inv in H1 as [H1|H1].
    + apply RegExpFacts.lit_inv in H1 as (c1 & -> & E1).
      rewrite litMatches_exact in E1. apply Ascii.eqb_eq in E1. subst c1. right. reflexivity.
    + inversion H1. left. reflexivity.
  - intros [->| ->].
    + change (String chLF EmptyString) with (EmptyString +:+ String chLF EmptyString).
      constructor; [apply RegExp.MAltR; constructor|].
      constructor. rewrite litMatches_exact. apply Ascii.eqb_refl.
    + change (String chCR (String chLF EmptyString))
        with (String chCR EmptyString +:+ String chLF EmptyString).
      constructor; [apply RegExp.MAltL|]; constructor;
        rewrite litMatches_exact; apply Ascii.eqb_refl.
Qed.

(** ** The plain-text fallback renders text only *)

Lemma imap_no_markup (g : nat -> string -> ReactNode) (l : list string) :
  (forall i s, injectsMarkup (g i s) = false) ->
  existsb injectsMarkup (imap g l) = false.
Proof.
  revert g. induction l as [|x l IH]; intros g Hg; [reflexivity|].
  simpl. rewrite Hg. apply IH. intros i s. apply Hg.
Qed.

Lemma imap_renderedText (g : nat -> string -> ReactNode) (l : list string) :
  (forall i s, renderedText (g i s) = [s]) ->
  flat_map renderedText (imap g l) = l.
Proof.
  revert g. induction l as [|x l IH]; intros g Hg; [reflexivity|].
  simpl. rewrite Hg. simpl. f_equal. apply IH. intros i s. apply Hg.
Qed.

Lemma plainText_cases (content : string) (className : option string) :
  let kept := List.filter nonBlank (splitLines content) in
  (length kept <= 1 ->
   plainText content className = RElement "div" None className None [RText content]) /\
  (2 <= length kept ->
   plainText content className = RElement "div" None className None (imap paragraph kept)).
Proof.
  intros kept. unfold plainText. fold kept.
  destruct (Nat.leb_spec (length kept) 1); split; intros; try reflexivity; lia.
Qed.

Lemma plainText_no_markup (content : string) (className : option string) :
  injectsMarkup (plainText content className) = false.
Proof.
  unfold plainText.
  destruct (length _ <=? 1)%nat; [reflexivity|].
  simpl. apply imap_no_markup. reflexivity.
Qed.

Lemma plainText_renderedText (content : string) (className : option string) :
  let kept := List.filter nonBlank (splitLines content) in
  renderedText (plainText content className) =
    if (length kept <=? 1)%nat then [content] else kept.
Proof.
  intros kept. unfold plainText. fold kept.
  destruct (length kept <=? 1)%nat; [reflexivity|].
  simpl. apply imap_renderedText. reflexivity.
Qed.

(** ** The walk below the root

    The rewrite itself does what it is meant to do on a subtree whose root
    is permitted: what it leaves in the tree has permitted elements only
    and no comments. *)

(** Induction on a node with the hypothesis for all children. *)
Lemma Node_rect_children (P : Node -> Prop) :
  (forall l a cs, List.Forall P cs -> P (Element l a cs)) ->
  (forall d, P (Text d)) ->
  (forall d, P (Comment d)) ->
  forall n, P n.
Proof.
  intros HE HT HC. fix rec 1. intros [l a cs|d|d]; [|apply HT|apply HC].
  apply HE. induction cs as [|c cs IH]; constructor; [apply rec | exact IH].
Qed.

Lemma walk_slot_mayStay (n : Node) :
  List.Forall (fun m => mayStay m = true /\ forallb mayStay (descendants m) = true) (snd (walk n)).
Proof.
  induction n as [l a cs IH|d|d] using Node_rect_children.
  - cbn [walk]. destruct (has ALLOWED_TAGS _) eqn:Hp; cbn [negb snd].
    + constructor; [|constructor]. split.
      * unfold mayStay, permitted. cbn [isComment isElement negb andb orb tagName].
        cbn [tagName] in Hp. exact Hp.
      * cbn [descendants]. apply forallb_forall. intros m Hm.
        apply in_flat_map in Hm as (c' & Hc' & Hm).
        apply in_flat_map in Hc' as (c & Hc & Hc').
        rewrite List.Forall_forall in IH. specialize (IH c Hc).
        rewrite List.Forall_forall in IH. destruct (IH c' Hc') as [Hk Hd].
        destruct Hm as [<-|Hm]; [exact Hk|].
        rewrite forallb_forall in Hd. apply Hd. exact Hm.
    + constructor; [|constructor]. split; reflexivity.
  - constructor; [|constructor]. split; reflexivity.
  - constructor.
Qed.

Lemma walk_permitted_self (n : Node) :
  isElement n = true -> permitted n = true -> snd (walk n) = [fst (walk n)].
Proof.
  destruct n as [l a cs|d|d]; try discriminate. intros _ Hp.
  unfold permitted in Hp. cbn [walk]. rewrite Hp. reflexivity.
Qed.

(** An element outside the permitted set leaves one text node with its
    flattened text in the tree. *)
Lemma walk_replaces_disallowed (n : Node) :
  isElement n = true -> permitted n = false -> snd (walk n) = [Text (textContent n)].
Proof.
  destruct n as [l a cs|d|d]; try discriminate. intros _ Hp.
  unfold permitted in Hp. cbn [walk]. rewrite Hp. reflexivity.
Qed.

(** Below a permitted root the walk leaves permitted elements only and no
    comments. *)
Lemma walk_permitted_clean (n : Node) :
  isElement n = true -> permitted n = true ->
  onlyPermittedElements (fst (walk n)) = true /\ noComments (fst (walk n)) = true.
Proof.
  intros He Hp. pose proof (walk_slot_mayStay n) as H.
  rewrite (walk_permitted_self n He Hp) in H.
  apply List.Forall_inv in H as [_ H]. rewrite forallb_forall in H.
  unfold onlyPermittedElements, noComments.
  split; apply forallb_forall; intros m Hm; specialize (H m Hm);
    unfold mayStay in H; apply andb_true_iff in H; tauto.
Qed.

(** ** The attribute loop on a parsed element *)

Ltac each_char_hyp c :=
  destruct c as [[] [] [] [] [] [] [] []]; vm_compute; intros;
  solve [reflexivity | discriminate].

Lemma toLowerChar_fixed (c : ascii) :
  JS.asciiLowerChar c = c -> (JS.code (JS.toLowerChar c) <? 128)%N = true ->
  JS.toLowerChar c = c.
Proof. each_char_hyp c. Qed.

Lemma toLowerCase_href (s : string) :
  JS.asciiLowerCase s = s -> JS.toLowerCase s = "href" -> s = "href".
Proof.
  intros Hs Ht.
  destruct s as [|c1 [|c2 [|c3 [|c4 [|c5 s]]]]]; try discriminate.
  cbn in Hs, Ht.
  injection Hs as H1 H2 H3 H4. injection Ht as T1 T2 T3 T4.
  rewrite <- (toLowerChar_fixed c1 H1), <- (toLowerChar_fixed c2 H2),
    <- (toLowerChar_fixed c3 H3), <- (toLowerChar_fixed c4 H4);
    [ rewrite T1, T2, T3, T4; reflexivity
    | rewrite T4; reflexivity | rewrite T3; reflexivity
    | rewrite T2; reflexivity | rewrite T1; reflexivity ].
Qed.

Lemma removeFirst_middle (q : string) (pre suf : list Attr) (a : Attr) :
  name a = q -> ~ In q (map name pre) ->
  removeFirst q (pre ++ a :: suf) = pre ++ suf.
Proof.
  intros Ha. induction pre as [|b pre IH]; intros Hn; simpl.
  - rewrite Ha, String.eqb_refl. reflexivity.
  - simpl in Hn. destruct (String.eqb_spec (name b) q) as [E|_]; [tauto|].
    rewrite IH by tauto. reflexivity.
Qed.

(** One round of the loop either leaves the list or removes the attribute
    under inspection. *)
Lemma visitAttr_step (tag : string) (pre suf : list Attr) (a : Attr) :
  JS.asciiLowerCase (name a) = name a -> ~ In (name a) (map name pre) ->
  visitAttr tag (pre ++ a :: suf) a =
    if keepAttr tag a then pre ++ a :: suf else pre ++ suf.
Proof.
  intros Hl Hn.
  assert (Hrm : removeAttribute (name a) (pre ++ a :: suf) = pre ++ suf).
  { unfold removeAttribute. rewrite Hl. apply removeFirst_middle; auto. }
  unfold visitAttr, keepAttr, isEventOrStyle.
  destruct (JS.startsWith (JS.toLowerCase (name a)) "on" ||
            (JS.toLowerCase (name a) =? "style")%string); cbn [negb andb]; [exact Hrm|].
  destruct (tag =? "a")%string; cbn [andb].
  - destruct (String.eqb_spec (JS.toLowerCase (name a)) "href") as [Eh|_].
    + destruct (hrefOk _); [reflexivity|].
      rewrite <- (toLowerCase_href _ Hl Eh). exact Hrm.
    + destruct (JS.toLowerCase (name a) =? "title")%string; [reflexivity|].
      cbn [orb].
      destruct ((JS.toLowerCase (name a) =? "target")%string ||
                (JS.toLowerCase (name a) =? "rel")%string); [reflexivity | exact Hrm].
  - destruct (tag =? "span")%string; exact Hrm.
Qed.

Lemma visitAttr_fold (tag : string) (suf pre : list Attr) :
  List.NoDup (map name (pre ++ suf)) ->
  List.Forall (fun a => JS.asciiLowerCase (name a) = name a) suf ->
  fold_left (visitAttr tag) suf (pre ++ suf) = pre ++ List.filter (keepAttr tag) suf.
Proof.
  revert pre. induction suf as [|a suf IH]; intros pre Hnd Hl; [reflexivity|].
  apply List.Forall_cons_iff in Hl as [Ha Hl].
  assert (Hn : ~ In (name a) (map name pre)).
  { rewrite map_app in Hnd. simpl in Hnd. apply NoDup_remove_2 in Hnd.
    intros Hin. apply Hnd. apply in_or_app. left. exact Hin. }
  cbn [fold_left List.filter]. rewrite visitAttr_step by assumption.
  destruct (keepAttr tag a).
  - change (pre ++ a :: suf) with (pre ++ [a] ++ suf).
    rewrite List.app_assoc. rewrite IH.
    + rewrite <- List.app_assoc. reflexivity.
    + rewrite <- List.app_assoc. exact Hnd.
    + exact Hl.
  - apply IH; [|exact Hl].
    rewrite map_app in *. simpl in Hnd. apply NoDup_remove_1 in Hnd. exact Hnd.
Qed.

(** On a parsed attribute list the loop is a filter. *)
Lemma visitAttr_loop (tag : string) (l : list Attr) :
  parsedAttrs l -> fold_left (visitAttr tag) l l = List.filter (keepAttr tag) l.
Proof. intros [Hnd Hl]. apply (visitAttr_fold tag l []); assumption. Qed.

Lemma setFirst_Forall (P : Attr -> Prop) (q v : string) (l : list Attr) :
  (forall a w, P a -> P (mkAttr (name a) w)) -> P (mkAttr q v) ->
  List.Forall P l -> List.Forall P (setFirst q v l).
Proof.
  intros Hname Hq. induction 1 as [|a l Ha Hl IH]; simpl.
  - constructor; [exact Hq | constructor].
  - destruct (name a =? q)%string; constructor; auto.
Qed.

Lemma getAttribute_setFirst_eq (q v : string) (l : list Attr) :
  getAttribute q (setFirst q v l) = Some v.
Proof.
  unfold getAttribute. induction l as [|a l IH]; simpl.
  - rewrite String.eqb_refl. reflexivity.
  - destruct (String.eqb_spec (name a) q) as [E|E]; simpl.
    + rewrite E, String.eqb_refl. reflexivity.
    + destruct (String.eqb_spec (name a) q); [contradiction | exact IH].
Qed.

Lemma getAttribute_setFirst_ne (q q' v : string) (l : list Attr) :
  q <> q' -> getAttribute q (setFirst q' v l) = getAttribute q l.
Proof.
  intros Hne. unfold getAttribute. induction l as [|a l IH]; simpl.
  - destruct (String.eqb_spec q' q); [congruence | reflexivity].
  - destruct (String.eqb_spec (name a) q') as [E|E]; simpl.
    + destruct (String.eqb_spec (name a) q); [congruence | reflexivity].
    + destruct (String.eqb_spec (name a) q); [reflexivity | exact IH].
Qed.

Lemma getAttribute_In (q v : string) (l : list Attr) :
  getAttribute q l = Some v -> exists a, In a l /\ name a = q /\ value a = v.
Proof.
  unfold getAttribute. destruct (find _ l) as [a|] eqn:E; [|discriminate].
  intros H. injection H as <-. apply find_some in E as [Hin Hq].
  apply String.eqb_eq in Hq. eauto.
Qed.

(** The attributes of a permitted element after the loop: no event handler
    and no [style]; on an anchor a safe [href], the fixed [target] and the
    fixed [rel]. *)
Lemma sanitizeAttrs_ok (l : string) (a : list Attr) (cs : list Node) :
  parsedAttrs a ->
  attrsOk (Element l (sanitizeAttrs (JS.toLowerCase (JS.asciiUpperCase l)) a) cs) = true.
Proof.
  intros Hp. set (tag := JS.toLowerCase (JS.asciiUpperCase l)).
  unfold attrsOk, sanitizeAttrs. rewrite (visitAttr_loop tag a Hp).
  assert (Hf : List.Forall (fun x => isEventOrStyle x = false) (List.filter (keepAttr tag) a)).
  { apply List.Forall_forall. intros x Hx. apply filter_In in Hx as [_ Hx].
    unfold keepAttr in Hx. destruct (isEventOrStyle x); [discriminate | reflexivity]. }
  apply andb_true_iff. split.
  - cbn [attrs]. apply forallb_forall. intros x Hx.
    assert (Hall : List.Forall (fun x => isEventOrStyle x = false)
                     (if (tag =? "a")%string
                      then setAttribute "rel" "noopener noreferrer"
                             (setAttribute "target" "_blank" (List.filter (keepAttr tag) a))
                      else List.filter (keepAttr tag) a)).
    { destruct (tag =? "a")%string; [|exact Hf].
      apply setFirst_Forall; [intros; assumption | reflexivity|].
      apply setFirst_Forall; [intros; assumption | reflexivity | exact Hf]. }
    rewrite List.Forall_forall in Hall. rewrite (Hall x Hx). reflexivity.
  - unfold isAnchor. cbn [isElement tagName andb attrs]. fold tag.
    destruct (String.eqb_spec tag "a") as [Ea|_]; [|reflexivity].
    cbn [negb orb]. unfold safeAnchor. cbn [attrs]. unfold setAttribute.
    change (JS.asciiLowerCase "rel") with "rel".
    change (JS.asciiLowerCase "target") with "target".
    rewrite getAttribute_setFirst_eq.
    rewrite (getAttribute_setFirst_ne "target" "rel") by discriminate.
    rewrite getAttribute_setFirst_eq.
    rewrite !(getAttribute_setFirst_ne "href") by discriminate.
    rewrite !bool_decide_eq_true_2 by reflexivity. rewrite !andb_true_r.
    destruct (getAttribute "href" _) as [v|] eqn:Eh; [|reflexivity].
    apply getAttribute_In in Eh as (x & Hx & Hn & <-).
    apply filter_In in Hx as [_ Hx]. unfold keepAttr in Hx.
    rewrite Hn in Hx. change (JS.toLowerCase "href" =? "href")%string with true in Hx.
    apply andb_true_iff in Hx as [_ Hx]. exact Hx.
Qed.

Lemma descendants_parsed (l : string) (a : list Attr) (cs : list Node) (c : Node) :
  parsedTree (Element l a cs) -> In c cs -> parsedTree c.
Proof.
  intros [_ H] Hc. cbn [descendants] in H. rewrite List.Forall_forall in H. split.
  - apply H. apply in_flat_map. exists c. split; [exact Hc | left; reflexivity].
  - apply List.Forall_forall. intros e He. apply H.
    apply in_flat_map. exists c. split; [exact Hc | right; exact He].
Qed.

Lemma walk_slot_attrsOk (n : Node) :
  parsedTree n ->
  List.Forall (fun m => attrsOk m = true /\ forallb attrsOk (descendants m) = true)
    (snd (walk n)).
Proof.
  induction n as [l a cs IH|d|d] using Node_rect_children; intros Hp.
  - cbn [walk]. destruct (has ALLOWED_TAGS _) eqn:Ht; cbn [negb snd].
    + constructor; [|constructor]. split.
      * apply sanitizeAttrs_ok. exact (proj1 Hp).
      * cbn [descendants]. apply forallb_forall. intros m Hm.
        apply in_flat_map in Hm as (c' & Hc' & Hm).
        apply in_flat_map in Hc' as (c & Hc & Hc').
        rewrite List.Forall_forall in IH.
        specialize (IH c Hc (descendants_parsed l a cs c Hp Hc)).
        rewrite List.Forall_forall in IH. destruct (IH c' Hc') as [Hk Hd].
        destruct Hm as [<-|Hm]; [exact Hk|].
        rewrite forallb_forall in Hd. apply Hd. exact Hm.
    + constructor; [|constructor]. split; reflexivity.
  - constructor; [|constructor]. split; reflexivity.
  - constructor.
Qed.

(** Below a permitted root of a parsed tree the walk leaves no event
    handler, no [style] and safe anchors only. *)
Lemma walk_permitted_attrs (n : Node) :
  isElement n = true -> permitted n = true -> parsedTree n ->
  noEventOrStyle (fst (walk n)) = true /\ anchorsSafe (fst (walk n)) = true.
Proof.
  intros He Hp Ht. pose proof (walk_slot_attrsOk n Ht) as H.
  rewrite (walk_permitted_self n He Hp) in H.
  apply List.Forall_inv in H as [_ H]. rewrite forallb_forall in H.
  unfold noEventOrStyle, anchorsSafe.
  split; apply forallb_forall; intros m Hm; specialize (H m Hm);
    unfold attrsOk in H; apply andb_true_iff in H; tauto.
Qed.

(** What the walk leaves of the children of the sample bodies when it is
    started on them rather than on [body]. *)
Example walk_child_div :
  flat_map (fun c => snd (walk c)) [Element "div" [mkAttr "onclick" "x()"] [Text "Hi"]]
  = [Text "Hi"].
Proof. reflexivity. Qed.

Example walk_child_styled :
  flat_map (fun c => snd (walk c))
    [Element "span" [mkAttr "style" "color:red"; mkAttr "onclick" "x()"] [Text "Hi"]]
  = [Element "span" [] [Text "Hi"]].
Proof. reflexivity. Qed.

Example walk_child_link :
  flat_map (fun c => snd (walk c))
    [Element "a" [mkAttr "href" "javascript:alert(1)"; mkAttr "target" "_self"] [Text "click"]]
  = [Element "a" [mkAttr "target" "_blank"; mkAttr "rel" "noopener noreferrer"]
       [Text "click"]].
Proof. reflexivity. Qed.

Example walk_child_comment :
  flat_map (fun c => snd (walk c)) [Element "p" [] [Text "Hi"; Comment "note"]]
  = [Element "p" [] [Text "Hi"]].
Proof. reflexivity. Qed.

Example walk_child_script :
  flat_map (fun c => snd (walk c)) [Text "Hi"; Element "script" [] [Text "alert(1)"]]
  = [Text "Hi"; Text "alert(1)"].
Proof. reflexivity. Qed.

(** The same inputs through [sanitizeHtml]: the script element placed in
    the body comes back as an element, and every pass over a [plaintext]
    element appends one more end tag. *)
Example sanitizeHtml_script_in_body :
  sanitizeHtml Browser.parseFromString Browser.innerHTML Browser.inputScriptInBody
  = Normal Browser.inputScriptInBody.
Proof. reflexivity. Qed.

Example sanitizeHtml_plaintext_grows :
  sanitizeHtml Browser.parseFromString Browser.innerHTML (Browser.plaintext 0)
    = Normal (Browser.plaintext 1) /\
  sanitizeHtml Browser.parseFromString Browser.innerHTML (Browser.plaintext 1)
    = Normal (Browser.plaintext 2) /\
  sanitizeHtml Browser.parseFromString Browser.innerHTML (Browser.plaintext 2)
    = Normal (Browser.plaintext 3).
Proof. repeat split; reflexivity. Qed.

(** ** The claims *)

(** C1.  The markup returned by [sanitizeHtml] should hold no element
    outside the permitted set, a disallowed element being replaced by its
    flattened text.  On [<div onclick="x()">Hi</div>] the serialised body
    still holds the [div] element: [walk(body)] finds that [body] itself is
    not permitted, replaces it in its parent and returns without visiting
    its children, and [body.innerHTML] serialises the untouched children.
    The output is the input. *)
Theorem sanitizeHtml_keeps_disallowed_element :
  sanitizedBody Browser.docDiv =
    Some (Element "body" [] [Element "div" [mkAttr "onclick" "x()"] [Text "Hi"]]) /\
  permitted (Element "div" [mkAttr "onclick" "x()"] [Text "Hi"]) = false /\
  option_map onlyPermittedElements (sanitizedBody Browser.docDiv) = Some false /\
  sanitizeHtml Browser.parseFromString Browser.innerHTML Browser.inputDiv
    = Normal Browser.inputDiv.
Proof.
  repeat split; reflexivity.
Qed.

(** C2.  [sanitizeHtml] never throws: for every parser, serialiser and
    input it returns a string, and when the parser throws, the document has
    no body or the serialiser throws, that string is empty. *)
Theorem sanitizeHtml_fail_closed
    (parseFromString : string -> Completion Document)
    (innerHTML : Node -> Completion string) (input : string) :
  (exists s, sanitizeHtml parseFromString innerHTML input = Normal s) /\
  (machineryFails parseFromString innerHTML input ->
   sanitizeHtml parseFromString innerHTML input = Normal EmptyString).
Proof.
  split; [apply sanitizeHtml_returns|].
  unfold sanitizeHtml, sanitizeHtml_try.
  intros [H|[(doc & H & Hb)|(doc & b & H & Hb & Hs)]]; rewrite H; simpl.
  - reflexivity.
  - rewrite Hb. reflexivity.
  - rewrite Hb. simpl. rewrite Hs. reflexivity.
Qed.

Lemma sanitizeHtml_fail_closed_witness :
  machineryFails Browser.failingParser Browser.innerHTML Browser.inputDiv /\
  sanitizeHtml Browser.failingParser Browser.innerHTML Browser.inputDiv = Normal EmptyString.
Proof.
  assert (H : machineryFails Browser.failingParser Browser.innerHTML Browser.inputDiv)
    by (left; reflexivity).
  split; [exact H|].
  exact (proj2 (sanitizeHtml_fail_closed Browser.failingParser Browser.innerHTML
                  Browser.inputDiv) H).
Defined.

(** C3.  No element of the output should carry an attribute whose name
    starts with [on] or the attribute [style].  On
    [<p style="color:red" onclick="x()">Hi</p>] the permitted element [p]
    keeps both attributes, because the walk stops at [body]. *)
Theorem sanitizeHtml_keeps_event_and_style_attributes :
  sanitizedBody Browser.docStyled =
    Some (Element "body" []
            [Element "p" [mkAttr "style" "color:red"; mkAttr "onclick" "x()"] [Text "Hi"]]) /\
  option_map noEventOrStyle (sanitizedBody Browser.docStyled) = Some false /\
  sanitizeHtml Browser.parseFromString Browser.innerHTML Browser.inputStyled
    = Normal Browser.inputStyled.
Proof.
  repeat split; reflexivity.
Qed.

(** C4.  Every anchor of the output should have a safe [href] (if any),
    [target="_blank"] and [rel="noopener noreferrer"].  On
    [<a href="javascript:alert(1)" target="_self">click</a>] the anchor
    comes back with its [javascript:] link, its own [target] and no [rel]. *)
Theorem sanitizeHtml_keeps_unsafe_anchor :
  let a := Element "a" [mkAttr "href" "javascript:alert(1)"; mkAttr "target" "_self"]
             [Text "click"] in
  sanitizedBody Browser.docLink = Some (Element "body" [] [a]) /\
  hrefOk (JS.trim "javascript:alert(1)") = false /\
  getAttribute "target" (attrs a) = Some "_self" /\
  getAttribute "rel" (attrs a) = None /\
  option_map anchorsSafe (sanitizedBody Browser.docLink) = Some false /\
  sanitizeHtml Browser.parseFromString Browser.innerHTML Browser.inputLink
    = Normal Browser.inputLink.
Proof.
  repeat split; reflexivity.
Qed.

(** C8.  Comment nodes should be removed and the output should hold no
    comment markers of the input.  On [<p>Hi<!--note--></p>] the comment is
    still in the serialised body and the output holds its markers. *)
Theorem sanitizeHtml_keeps_comment :
  sanitizedBody Browser.docComment =
    Some (Element "body" [] [Element "p" [] [Text "Hi"; Comment "note"]]) /\
  option_map noComments (sanitizedBody Browser.docComment) = Some false /\
  sanitizeHtml Browser.parseFromString Browser.innerHTML Browser.inputComment
    = Normal Browser.inputComment /\
  includes Browser.inputComment "<!--note-->" = true.
Proof.
  repeat split; reflexivity.
Qed.


(** C6.  [looksLikeHtml] is a total boolean function that returns [true]
    exactly on the strings with a substring made of [<], an optional [/],
    an ASCII letter of either case, any characters and [>]; it is [false]
    on [a < b] and on the empty string and [true] on
    [use <b>bold</b> text]. *)
Theorem looksLikeHtml_spec :
  (forall s, looksLikeHtml s = true <-> tagLike s) /\
  looksLikeHtml "a < b" = false /\
  looksLikeHtml "use <b>bold</b> text" = true /\
  looksLikeHtml EmptyString = false.
Proof.
  split; [apply looksLikeHtml_tagLike|]. repeat split; reflexivity.
Qed.

(** C9.  Only the body of the parsed document reaches the output: two
    inputs whose documents have the same body give the same output,
    whatever the parser placed in the head or elsewhere outside the body. *)
Theorem sanitizeHtml_serializes_body_only
    (parseFromString : string -> Completion Document)
    (innerHTML : Node -> Completion string)
    (x1 x2 : string) (d1 d2 : Document) :
  parseFromString x1 = Normal d1 ->
  parseFromString x2 = Normal d2 ->
  body d1 = body d2 ->
  sanitizeHtml parseFromString innerHTML x1 = sanitizeHtml parseFromString innerHTML x2.
Proof.
  intros H1 H2 Hb.
  rewrite (sanitizeHtml_unfold _ _ _ _ H1), (sanitizeHtml_unfold _ _ _ _ H2), Hb.
  reflexivity.
Qed.

Lemma sanitizeHtml_serializes_body_only_witness :
  Browser.docTitle <> Browser.docParagraph /\
  sanitizeHtml Browser.parseFromString Browser.innerHTML Browser.inputTitle
  = sanitizeHtml Browser.parseFromString Browser.innerHTML Browser.inputParagraph.
Proof.
  split; [discriminate|].
  exact (sanitizeHtml_serializes_body_only Browser.parseFromString Browser.innerHTML
           Browser.inputTitle Browser.inputParagraph Browser.docTitle Browser.docParagraph
           eq_refl eq_refl eq_refl).
Defined.

(** C10.  [RichText] reads an absent child as the empty string and takes
    one of two branches: when the content looks like markup the result is
    the [div] into which the output of [sanitizeHtml] is injected as
    markup; otherwise it is the plain-text rendering, which injects no
    markup anywhere and renders as text the content or its kept lines. *)
Theorem RichText_routes
    (parseFromString : string -> Completion Document)
    (innerHTML : Node -> Completion string)
    (content : string) (className : option string) :
  RichText parseFromString innerHTML None className
    = RichText parseFromString innerHTML (Some EmptyString) className /\
  (looksLikeHtml content = true ->
   exists safe,
     sanitizeHtml parseFromString innerHTML content = Normal safe /\
     RichText parseFromString innerHTML (Some content) className
       = Normal (RElement "div" None className (Some safe) [])) /\
  (looksLikeHtml content = false ->
   RichText parseFromString innerHTML (Some content) className
     = Normal (plainText content className) /\
   injectsMarkup (plainText content className) = false /\
   Forall (fun t => t = content \/ In t (splitLines content))
     (renderedText (plainText content className))).
Proof.
  split; [reflexivity|]. split.
  - intros H. destruct (sanitizeHtml_returns parseFromString innerHTML content) as [safe Hs].
    exists safe. split; [exact Hs|].
    unfold RichText. simpl. rewrite H, Hs. reflexivity.
  - intros H. split; [unfold RichText; simpl; rewrite H; reflexivity|].
    split; [apply plainText_no_markup|].
    pose proof (plainText_renderedText content className) as Hr. simpl in Hr. rewrite Hr.
    destruct (_ <=? 1)%nat.
    + constructor; [left; reflexivity | constructor].
    + apply List.Forall_forall. intros t Ht. right.
      apply filter_In in Ht. tauto.
Qed.

Lemma RichText_routes_witness :
  looksLikeHtml Browser.inputDiv = true /\
  looksLikeHtml "a < b" = false /\
  RichText Browser.parseFromString Browser.innerHTML (Some "a < b") None
    = Normal (plainText "a < b" None) /\
  exists safe,
    RichText Browser.parseFromString Browser.innerHTML (Some Browser.inputDiv) None
      = Normal (RElement "div" None None (Some safe) []).
Proof.
  assert (H1 : looksLikeHtml Browser.inputDiv = true) by reflexivity.
  assert (H2 : looksLikeHtml "a < b" = false) by reflexivity.
  split; [exact H1|]. split; [exact H2|]. split.
  - exact (proj1 (proj2 (proj2 (RichText_routes Browser.parseFromString Browser.innerHTML
                                   "a < b" None)) H2)).
  - destruct (proj1 (proj2 (RichText_routes Browser.parseFromString Browser.innerHTML
                              Browser.inputDiv None)) H1) as (safe & _ & H).
    exists safe. exact H.
Defined.

(** * Further properties of the code *)

(** ** The walk keeps the text *)

Lemma join_app (l1 l2 : list string) : JS.join (l1 ++ l2) = JS.join l1 +:+ JS.join l2.
Proof.
  induction l1 as [|x l1 IH]; [reflexivity|].
  change (JS.join ((x :: l1) ++ l2)) with (x +:+ JS.join (l1 ++ l2)).
  change (JS.join (x :: l1)) with (x +:+ JS.join l1).
  rewrite IH, app_assoc. reflexivity.
Qed.

Lemma join_cons (x : string) (l : list string) : JS.join (x :: l) = x +:+ JS.join l.
Proof. reflexivity. Qed.

Lemma join_flat_map {A : Type} (f : A -> list string) (l : list A) :
  JS.join (flat_map f l) = JS.join (map (fun x => JS.join (f x)) l).
Proof.
  induction l as [|x l IH]; [reflexivity|].
  cbn [flat_map map]. rewrite join_app, join_cons, IH. reflexivity.
Qed.

(** X1.  The walk keeps the reader-visible text: the text of what [walk]
    leaves at the place of a node is the text of the node, whether the
    node is kept, replaced by its flattened text or (a comment) removed. *)
Theorem walk_preserves_text (n : Node) :
  JS.join (map descendantText (snd (walk n))) = descendantText n.
Proof.
  induction n as [l a cs IH|d|d] using Node_rect_children.
  - cbn [walk]. destruct (has ALLOWED_TAGS _); cbn [negb snd map].
    + rewrite join_cons. cbn [JS.join fold_right]. rewrite app_nil_r.
      cbn [descendantText].
      induction cs as [|c cs IHcs]; [reflexivity|].
      apply List.Forall_cons_iff in IH as [Hc Hcs].
      cbn [flat_map map]. rewrite List.map_app, join_app, join_cons, Hc, (IHcs Hcs).
      reflexivity.
    + rewrite join_cons. cbn [JS.join fold_right]. rewrite app_nil_r. reflexivity.
  - cbn. apply app_nil_r.
  - reflexivity.
Qed.

(** ** The attributes the walk leaves *)

Lemma toLowerCase_ascii_fixed (s : string) :
  JS.asciiLowerCase s = s -> allAscii (JS.toLowerCase s) = true -> JS.toLowerCase s = s.
Proof.
  induction s as [|c s IH]; [reflexivity|].
  cbn [JS.asciiLowerCase JS.toLowerCase JS.map_string allAscii].
  intros H Ha. injection H as Hc Hs. apply andb_true_iff in Ha as [Hca Hsa].
  fold (JS.toLowerCase s). rewrite (toLowerChar_fixed c Hc Hca).
  f_equal. apply IH; assumption.
Qed.

Lemma keepAttr_names (x : Attr) :
  JS.asciiLowerCase (name x) = name x -> keepAttr "a" x = true ->
  In (name x) anchorAttrNames.
Proof.
  intros Hl Hk. unfold keepAttr in Hk.
  apply andb_true_iff in Hk as [_ Hk].
  assert (Hin : In (JS.toLowerCase (name x)) anchorAttrNames).
  { destruct (String.eqb_spec (JS.toLowerCase (name x)) "href") as [->|_];
      [left; reflexivity|].
    apply orb_true_iff in Hk as [Hk|Hk]; [apply orb_true_iff in Hk as [Hk|Hk]|];
      apply String.eqb_eq in Hk; rewrite Hk; cbn; tauto. }
  rewrite <- (toLowerCase_ascii_fixed (name x) Hl); [exact Hin|].
  destruct Hin as [<-|[<-|[<-|[<-|[]]]]]; reflexivity.
Qed.

Lemma filter_all {A : Type} (f : A -> bool) (l : list A) :
  (forall x, In x l -> f x = true) -> List.filter f l = l.
Proof.
  induction l as [|x l IH]; intros H; [reflexivity|].
  cbn. rewrite (H x) by (left; reflexivity). f_equal. apply IH.
  intros y Hy. apply H. right. exact Hy.
Qed.

Lemma keepAttr_other_tag (tag : string) (l : list Attr) :
  (tag =? "a")%string = false -> List.filter (keepAttr tag) l = [].
Proof.
  intros Ht. induction l as [|x l IH]; [reflexivity|].
  cbn. unfold keepAttr at 1. rewrite Ht, andb_false_r. exact IH.
Qed.

Lemma setFirst_names (q v x : string) (l : list Attr) :
  In x (map name (setFirst q v l)) -> x = q \/ In x (map name l).
Proof.
  induction l as [|a l IH]; cbn.
  - intros [<-|[]]. left. reflexivity.
  - destruct (name a =? q)%string; cbn; intros [H|H]; auto.
    destruct (IH H); auto.
Qed.

Lemma parsedAttrs_filter (f : Attr -> bool) (l : list Attr) :
  parsedAttrs l -> parsedAttrs (List.filter f l).
Proof.
  intros [Hnd Hl]. split.
  - clear Hl. induction l as [|a l IH]; [constructor|].
    cbn in *. apply List.NoDup_cons_iff in Hnd as [Hn Hnd].
    destruct (f a); [|apply IH; exact Hnd].
    cbn. constructor; [|apply IH; exact Hnd].
    intros Hin. apply Hn. apply in_map_iff in Hin as (y & Hy & Hin).
    apply in_map_iff. exists y. split; [exact Hy|].
    apply filter_In in Hin. tauto.
  - apply List.Forall_forall. intros x Hx. apply filter_In in Hx as [Hx _].
    rewrite List.Forall_forall in Hl. apply Hl. exact Hx.
Qed.

Lemma parsedAttrs_setFirst (q v : string) (l : list Attr) :
  JS.asciiLowerCase q = q -> parsedAttrs l -> parsedAttrs (setFirst q v l).
Proof.
  intros Hq [Hnd Hl]. split.
  - clear Hl. induction l as [|a l IH]; cbn.
    + constructor; [intros [] | constructor].
    + cbn in Hnd. apply List.NoDup_cons_iff in Hnd as [Hn Hnd].
      destruct (String.eqb_spec (name a) q) as [E|E]; cbn.
      * constructor; assumption.
      * constructor; [|apply IH; exact Hnd].
        intros Hin. apply setFirst_names in Hin as [Hin|Hin]; [congruence | contradiction].
  - apply setFirst_Forall; [intros a w Ha; exact Ha | exact Hq | exact Hl].
Qed.

Lemma setFirst_same (q v : string) (l : list Attr) :
  getAttribute q l = Some v -> setFirst q v l = l.
Proof.
  unfold getAttribute. induction l as [|a l IH]; cbn; [discriminate|].
  destruct (name a =? q)%string; cbn.
  - intros H. injection H as <-. destruct a; reflexivity.
  - intros H. f_equal. apply IH. exact H.
Qed.

(** The attribute list of a permitted element after the loop, on a parsed
    list. *)
Lemma sanitizeAttrs_parsed (tag : string) (l : list Attr) :
  parsedAttrs l ->
  sanitizeAttrs tag l =
    if (tag =? "a")%string
    then setFirst "rel" "noopener noreferrer"
           (setFirst "target" "_blank" (List.filter (keepAttr "a") l))
    else [].
Proof.
  intros Hp. unfold sanitizeAttrs. rewrite (visitAttr_loop tag l Hp).
  destruct (String.eqb_spec tag "a") as [->|Hne]; [reflexivity|].
  apply keepAttr_other_tag. apply String.eqb_neq. exact Hne.
Qed.

Lemma sanitizeAttrs_keeps_parsed (tag : string) (l : list Attr) :
  parsedAttrs l -> parsedAttrs (sanitizeAttrs tag l).
Proof.
  intros Hp. rewrite (sanitizeAttrs_parsed tag l Hp).
  destruct (tag =? "a")%string.
  - apply parsedAttrs_setFirst; [reflexivity|].
    apply parsedAttrs_setFirst; [reflexivity|].
    apply parsedAttrs_filter. exact Hp.
  - split; constructor.
Qed.

Lemma keepAttr_name_only (x : Attr) (w : string) :
  (JS.toLowerCase (name x) =? "href")%string = false ->
  keepAttr "a" (mkAttr (name x) w) = keepAttr "a" x.
Proof.
  intros H. unfold keepAttr, isEventOrStyle. cbn [name value]. rewrite H. reflexivity.
Qed.

Lemma setFirst_keep (q v : string) (l : list Attr) :
  (JS.toLowerCase q =? "href")%string = false ->
  keepAttr "a" (mkAttr q v) = true ->
  (forall x, In x l -> keepAttr "a" x = true) ->
  forall x, In x (setFirst q v l) -> keepAttr "a" x = true.
Proof.
  intros Hq Hk. induction l as [|a l IH]; cbn; intros Hl x.
  - intros [<-|[]]. exact Hk.
  - destruct (String.eqb_spec (name a) q) as [E|E]; cbn.
    + intros [<-|Hx]; [|apply Hl; right; exact Hx].
      rewrite keepAttr_name_only by (rewrite E; exact Hq).
      apply Hl. left. reflexivity.
    + intros [<-|Hx]; [apply Hl; left; reflexivity|].
      apply IH; [|exact Hx]. intros y Hy. apply Hl. right. exact Hy.
Qed.

Lemma sanitizeAttrs_idempotent (tag : string) (l : list Attr) :
  parsedAttrs l -> sanitizeAttrs tag (sanitizeAttrs tag l) = sanitizeAttrs tag l.
Proof.
  intros Hp.
  rewrite (sanitizeAttrs_parsed tag _ (sanitizeAttrs_keeps_parsed tag l Hp)).
  rewrite (sanitizeAttrs_parsed tag l Hp).
  destruct (tag =? "a")%string; [|reflexivity].
  set (l1 := List.filter (keepAttr "a") l).
  set (l2 := setFirst "target" "_blank" l1).
  set (l3 := setFirst "rel" "noopener noreferrer" l2).
  assert (Hk : forall x, In x l3 -> keepAttr "a" x = true).
  { apply setFirst_keep; [reflexivity | reflexivity|].
    apply setFirst_keep; [reflexivity | reflexivity|].
    intros x Hx. apply filter_In in Hx. tauto. }
  rewrite (filter_all _ l3 Hk).
  assert (Ht : getAttribute "target" l3 = Some "_blank").
  { unfold l3. rewrite getAttribute_setFirst_ne by discriminate.
    apply getAttribute_setFirst_eq. }
  rewrite (setFirst_same "target" "_blank" l3 Ht).
  apply setFirst_same. apply getAttribute_setFirst_eq.
Qed.

Lemma getAttribute_absent (q : string) (f : Attr -> bool) (l : list Attr) :
  ~ In q (map name l) -> getAttribute q (List.filter f l) = None.
Proof.
  intros Hn. unfold getAttribute.
  destruct (find _ (List.filter f l)) as [x|] eqn:E; [|reflexivity].
  apply find_some in E as [Hx Hq]. apply filter_In in Hx as [Hx _].
  apply String.eqb_eq in Hq. destruct Hn. rewrite <- Hq. apply in_map. exact Hx.
Qed.

Lemma getAttribute_filter (q : string) (f : Attr -> bool) (l : list Attr) :
  List.NoDup (map name l) ->
  getAttribute q (List.filter f l) =
    match find (fun a => (name a =? q)%string) l with
    | Some x => if f x then Some (value x) else None
    | None => None
    end.
Proof.
  induction l as [|a l IH]; intros Hnd; [reflexivity|].
  cbn in Hnd. apply List.NoDup_cons_iff in Hnd as [Hn Hnd].
  cbn [find List.filter]. destruct (String.eqb_spec (name a) q) as [E|E].
  - destruct (f a).
    + unfold getAttribute. cbn. rewrite E, String.eqb_refl. reflexivity.
    + apply getAttribute_absent. rewrite <- E. exact Hn.
  - destruct (f a); [|apply IH; exact Hnd].
    unfold getAttribute. cbn. destruct (String.eqb_spec (name a) q); [contradiction|].
    apply IH. exact Hnd.
Qed.

Ltac parsed_attrs :=
  split; [repeat (constructor; [cbn; intuition discriminate|]); constructor
         | repeat (constructor; [reflexivity|]); constructor].

Ltac parsed_tree :=
  split; [parsed_attrs | cbn; repeat (constructor; [parsed_attrs|]); constructor].

(** X2.  Whatever node [walk] is started on, what it leaves at the place
    of that node holds no comment and no element outside the permitted
    set, at the top and below. *)
Theorem walk_leaves_permitted_only (n : Node) :
  List.Forall
    (fun m =>
       isComment m = false /\ (isElement m = true -> permitted m = true) /\
       onlyPermittedElements m = true /\ noComments m = true)
    (snd (walk n)).
Proof.
  pose proof (walk_slot_mayStay n) as H.
  eapply List.Forall_impl; [|exact H]. cbn beta.
  intros m [Hm Hd]. unfold mayStay in Hm. apply andb_true_iff in Hm as [Hc Hp].
  split; [destruct (isComment m); [discriminate | reflexivity]|].
  split; [intros He; rewrite He in Hp; exact Hp|].
  rewrite forallb_forall in Hd.
  unfold onlyPermittedElements, noComments.
  split; apply forallb_forall; intros e He; specialize (Hd e He);
    unfold mayStay in Hd; apply andb_true_iff in Hd; tauto.
Qed.

(** X3.  On a tree whose attribute lists are as the parser builds them
    (lower-case names, no name twice), what [walk] leaves at the place of
    a node carries no event handler and no [style] attribute, and every
    anchor in it has a safe [href] (if any), [target="_blank"] and
    [rel="noopener noreferrer"]. *)
Theorem walk_leaves_safe_attributes (n : Node) :
  parsedTree n ->
  List.Forall
    (fun m => attrsOk m = true /\ noEventOrStyle m = true /\ anchorsSafe m = true)
    (snd (walk n)).
Proof.
  intros Hp. pose proof (walk_slot_attrsOk n Hp) as H.
  eapply List.Forall_impl; [|exact H]. cbn beta.
  intros m [Hm Hd]. split; [exact Hm|].
  rewrite forallb_forall in Hd. unfold noEventOrStyle, anchorsSafe.
  split; apply forallb_forall; intros e He; specialize (Hd e He);
    unfold attrsOk in Hd; apply andb_true_iff in Hd; tauto.
Qed.

Lemma walk_leaves_safe_attributes_witness :
  snd (walk (Element "p" [mkAttr "onclick" "x()"]
               [Element "a" [mkAttr "href" "javascript:alert(1)"; mkAttr "style" "x"]
                  [Text "click"]]))
  = [Element "p" []
       [Element "a" [mkAttr "target" "_blank"; mkAttr "rel" "noopener noreferrer"]
          [Text "click"]]] /\
  List.Forall
    (fun m => attrsOk m = true /\ noEventOrStyle m = true /\ anchorsSafe m = true)
    (snd (walk (Element "p" [mkAttr "onclick" "x()"]
                  [Element "a" [mkAttr "href" "javascript:alert(1)"; mkAttr "style" "x"]
                     [Text "click"]]))).
Proof.
  split; [reflexivity|].
  apply walk_leaves_safe_attributes. parsed_tree.
Defined.

Lemma walk_attrs (l : string) (a : list Attr) (cs : list Node) :
  permitted (Element l a cs) = true ->
  attrs (fst (walk (Element l a cs))) =
    sanitizeAttrs (JS.toLowerCase (tagName (Element l a cs))) a.
Proof.
  intros Hp. unfold permitted in Hp. cbn [walk]. rewrite Hp. reflexivity.
Qed.

Lemma isAnchor_permitted (n : Node) : isAnchor n = true -> permitted n = true.
Proof.
  unfold isAnchor, permitted. intros H. apply andb_true_iff in H as [_ H].
  apply String.eqb_eq in H. rewrite H. reflexivity.
Qed.

(** X4.  A permitted element with a parsed attribute list comes out of the
    walk without attributes unless it is an anchor, and an anchor comes
    out with attributes named [href], [title], [target] or [rel] only. *)
Theorem walk_attribute_names (l : string) (a : list Attr) (cs : list Node) :
  permitted (Element l a cs) = true -> parsedAttrs a ->
  (isAnchor (Element l a cs) = false -> attrs (fst (walk (Element l a cs))) = []) /\
  (isAnchor (Element l a cs) = true ->
   List.Forall (fun x => In (name x) anchorAttrNames) (attrs (fst (walk (Element l a cs))))).
Proof.
  intros Hp Ha. rewrite (walk_attrs l a cs Hp), (sanitizeAttrs_parsed _ a Ha).
  unfold isAnchor. cbn [isElement andb].
  destruct (JS.toLowerCase (tagName (Element l a cs)) =? "a")%string;
    split; intros H; try discriminate; [|reflexivity].
  apply setFirst_Forall; [intros x w Hx; exact Hx | cbn; tauto|].
  apply setFirst_Forall; [intros x w Hx; exact Hx | cbn; tauto|].
  apply List.Forall_forall. intros x Hx. apply filter_In in Hx as [Hx Hk].
  apply keepAttr_names; [|exact Hk].
  destruct Ha as [_ Hl]. rewrite List.Forall_forall in Hl. apply Hl. exact Hx.
Qed.

Lemma walk_attribute_names_witness :
  attrs (fst (walk (Element "span" [mkAttr "class" "x"; mkAttr "id" "y"] [Text "Hi"]))) = [] /\
  List.Forall (fun x => In (name x) anchorAttrNames)
    (attrs (fst (walk (Element "a" [mkAttr "href" "#top"; mkAttr "class" "x"] [])))).
Proof.
  split.
  - apply (proj1 (walk_attribute_names "span" [mkAttr "class" "x"; mkAttr "id" "y"]
                    [Text "Hi"] eq_refl ltac:(parsed_attrs))).
    reflexivity.
  - apply (proj2 (walk_attribute_names "a" [mkAttr "href" "#top"; mkAttr "class" "x"]
                    [] eq_refl ltac:(parsed_attrs))).
    reflexivity.
Defined.

Lemma flat_map_singletons {A : Type} (f : A -> list A) (l : list A) :
  (forall x, In x l -> f x = [x]) -> flat_map f l = l.
Proof.
  induction l as [|x l IH]; intros H; [reflexivity|].
  cbn. rewrite (H x) by (left; reflexivity). cbn. f_equal.
  apply IH. intros y Hy. apply H. right. exact Hy.
Qed.

(** X5.  The walk is idempotent on a parsed tree: a second walk over what
    the first one left changes nothing. *)
Theorem walk_idempotent (n : Node) :
  parsedTree n -> List.Forall (fun m => walk m = (m, [m])) (snd (walk n)).
Proof.
  induction n as [l a cs IH|d|d] using Node_rect_children; intros Hp.
  - cbn [walk]. destruct (has ALLOWED_TAGS _) eqn:Ht; cbn [negb snd].
    + constructor; [|constructor]. cbn [walk tagName]. cbn [tagName] in Ht.
      rewrite Ht. cbn [negb].
      rewrite (sanitizeAttrs_idempotent _ a (proj1 Hp)).
      rewrite flat_map_singletons; [reflexivity|].
      intros c' Hc'. apply in_flat_map in Hc' as (c & Hc & Hc').
      rewrite List.Forall_forall in IH.
      specialize (IH c Hc (descendants_parsed l a cs c Hp Hc)).
      rewrite List.Forall_forall in IH. rewrite (IH c' Hc'). reflexivity.
    + constructor; [reflexivity | constructor].
  - constructor; [reflexivity | constructor].
  - constructor.
Qed.

Lemma walk_idempotent_witness :
  List.Forall (fun m => walk m = (m, [m]))
    (snd (walk (Element "p" [mkAttr "onclick" "x()"]
                  [Element "a" [mkAttr "href" "javascript:alert(1)"; mkAttr "title" "t"]
                     [Text "click"; Comment "c"; Element "div" [] [Text "d"]]]))).
Proof. apply walk_idempotent. parsed_tree. Defined.

(** X6.  On an anchor with a parsed attribute list the walk keeps the
    [title] as it is and keeps the [href], with its value unchanged,
    exactly when the trimmed value passes the test on the scheme. *)
Theorem walk_anchor_href_title (l : string) (a : list Attr) (cs : list Node) :
  isAnchor (Element l a cs) = true -> parsedAttrs a ->
  getAttribute "title" (attrs (fst (walk (Element l a cs)))) = getAttribute "title" a /\
  getAttribute "href" (attrs (fst (walk (Element l a cs)))) =
    match getAttribute "href" a with
    | Some v => if hrefOk (JS.trim v) then Some v else None
    | None => None
    end.
Proof.
  intros Hi Ha.
  rewrite (walk_attrs l a cs (isAnchor_permitted _ Hi)), (sanitizeAttrs_parsed _ a Ha).
  unfold isAnchor in Hi. cbn [isElement andb] in Hi. rewrite Hi.
  rewrite !(getAttribute_setFirst_ne "title") by discriminate.
  rewrite !(getAttribute_setFirst_ne "href") by discriminate.
  rewrite !(getAttribute_filter _ _ a (proj1 Ha)). unfold getAttribute.
  split.
  - destruct (find _ a) as [x|] eqn:E; [|reflexivity]. cbn [option_map].
    apply find_some in E as [_ E]. apply String.eqb_eq in E.
    destruct x as [nm vl]. cbn in E. subst nm. reflexivity.
  - destruct (find _ a) as [x|] eqn:E; [|reflexivity]. cbn [option_map].
    apply find_some in E as [_ E]. apply String.eqb_eq in E.
    destruct x as [nm vl]. cbn in E. subst nm. reflexivity.
Qed.

Lemma walk_anchor_href_title_witness :
  getAttribute "title"
    (attrs (fst (walk (Element "a" [mkAttr "href" " https://x.org "; mkAttr "title" "t"] []))))
  = Some "t" /\
  getAttribute "href"
    (attrs (fst (walk (Element "a" [mkAttr "href" " https://x.org "; mkAttr "title" "t"] []))))
  = Some " https://x.org ".
Proof.
  exact (walk_anchor_href_title "a" [mkAttr "href" " https://x.org "; mkAttr "title" "t"] []
           eq_refl ltac:(parsed_attrs)).
Defined.

(** X7.  A value that passes the test on the scheme of an [href] never
    starts with [javascript:], [data:] or [vbscript:], in any letter
    case. *)
Theorem hrefOk_excludes_script_schemes (v : string) :
  hrefOk v = true ->
  JS.startsWith (JS.toLowerCase v) "javascript:" = false /\
  JS.startsWith (JS.toLowerCase v) "data:" = false /\
  JS.startsWith (JS.toLowerCase v) "vbscript:" = false.
Proof.
  destruct v as [|c r]; [discriminate|].
  destruct c as [[] [] [] [] [] [] [] []]; vm_compute; intros H;
    solve [discriminate H | repeat split; reflexivity].
Qed.

Lemma hrefOk_excludes_script_schemes_witness :
  JS.startsWith (JS.toLowerCase "https://example.org/") "javascript:" = false.
Proof.
  exact (proj1 (hrefOk_excludes_script_schemes "https://example.org/" eq_refl)).
Defined.

(** ** More on the classifier and the plain-text fallback *)

Lemma hasChar_app (c : ascii) (s t : string) :
  hasChar c (s +:+ t) = hasChar c s || hasChar c t.
Proof.
  induction s as [|d s IH]; [reflexivity|].
  rewrite app_cons. cbn [hasChar]. rewrite IH, orb_assoc. reflexivity.
Qed.

Lemma tagLike_angles (s : string) :
  tagLike s -> hasChar chLt s = true /\ hasChar chGt s = true.
Proof.
  intros (before & slash & c & mid & after & -> & _ & _). split.
  - rewrite hasChar_app. cbn [hasChar]. rewrite Ascii.eqb_refl, orb_true_r. reflexivity.
  - rewrite hasChar_app. cbn [hasChar]. rewrite hasChar_app. cbn [hasChar].
    rewrite hasChar_app. cbn [hasChar]. rewrite Ascii.eqb_refl.
    rewrite !orb_true_r. reflexivity.
Qed.

(** X8.  The classifier looks at the string as a whole: a string that
    contains a string classified as markup is classified as markup, with
    whatever text before and after. *)
Theorem looksLikeHtml_monotone (before s after : string) :
  looksLikeHtml s = true -> looksLikeHtml (before +:+ s +:+ after) = true.
Proof.
  rewrite !looksLikeHtml_tagLike.
  intros (b & slash & c & mid & a & -> & Hs & Hc).
  exists (before +:+ b), slash, c, mid, (a +:+ after). split; [|split; assumption].
  rewrite !app_assoc, !app_cons, !app_assoc, !app_cons, !app_assoc, !app_cons.
  reflexivity.
Qed.

Lemma looksLikeHtml_monotone_witness :
  looksLikeHtml ("Error: " +:+ "<b>x</b>" +:+ " (see log)") = true.
Proof. exact (looksLikeHtml_monotone "Error: " "<b>x</b>" " (see log)" eq_refl). Defined.

(** X9.  Content without the character [<] or without the character [>]
    never reaches the sanitizer: [RichText] renders it as text, for every
    parser and serialiser. *)
Theorem RichText_text_without_angles
    (parseFromString : string -> Completion Document)
    (innerHTML : Node -> Completion string)
    (content : string) (className : option string) :
  hasChar chLt content = false \/ hasChar chGt content = false ->
  looksLikeHtml content = false /\
  RichText parseFromString innerHTML (Some content) className
    = Normal (plainText content className).
Proof.
  intros H.
  assert (Hl : looksLikeHtml content = false).
  { destruct (looksLikeHtml content) eqn:E; [|reflexivity].
    apply looksLikeHtml_tagLike, tagLike_angles in E as [E1 E2].
    destruct H as [H|H]; congruence. }
  split; [exact Hl|]. unfold RichText. simpl. rewrite Hl. reflexivity.
Qed.

Lemma RichText_text_without_angles_witness :
  RichText Browser.failingParser Browser.failingSerializer (Some "1 < 2 and so on") None
  = Normal (plainText "1 < 2 and so on" None).
Proof.
  exact (proj2 (RichText_text_without_angles Browser.failingParser Browser.failingSerializer
                  "1 < 2 and so on" None (or_intror eq_refl))).
Defined.

(** X10.  [RichText] never throws, whatever the parser and the serialiser
    do and whatever the child is. *)
Theorem RichText_returns
    (parseFromString : string -> Completion Document)
    (innerHTML : Node -> Completion string)
    (children_ : option string) (className : option string) :
  exists r, RichText parseFromString innerHTML children_ className = Normal r.
Proof.
  unfold RichText. destruct (looksLikeHtml _).
  - destruct (sanitizeHtml_returns parseFromString innerHTML (default EmptyString children_))
      as [safe Hs].
    rewrite Hs. eexists. reflexivity.
  - eexists. reflexivity.
Qed.

Lemma length_consChar (c : ascii) (l : list string) :
  l <> [] -> length (consChar c l) = length l.
Proof. destruct l; [congruence | reflexivity]. Qed.

Lemma splitLines_nonempty (s : string) : splitLines s <> [].
Proof.
  pose proof (splitLines_Splits s) as H. destruct H; discriminate.
Qed.

Lemma Splits_count (s : string) (ls : list string) :
  Splits s ls -> length ls = S (countLF s) /\ List.Forall (fun l => hasLF l = false) ls.
Proof.
  assert (Hc : forall l, hasLF l = false -> countLF l = 0).
  { induction l as [|c l IH]; [reflexivity|]. cbn. intros H.
    apply orb_false_iff in H as [-> H]. apply IH. exact H. }
  assert (Ha : forall l t, countLF (l +:+ t) = countLF l + countLF t).
  { induction l as [|c l IH]; intros t; [reflexivity|].
    rewrite app_cons. cbn. rewrite IH. lia. }
  induction 1 as [l Hl|l rest ls Hl He _ [IH1 IH2]|l rest ls Hl _ [IH1 IH2]].
  - split; [cbn; rewrite (Hc l Hl); reflexivity | constructor; [exact Hl | constructor]].
  - split; [|constructor; assumption].
    rewrite Ha, (Hc l Hl). cbn. rewrite IH1. reflexivity.
  - split; [|constructor; assumption].
    rewrite Ha, (Hc l Hl). cbn. rewrite IH1. reflexivity.
Qed.

(** X11.  The split makes one piece more than the content has line feeds,
    and no piece holds a line feed. *)
Theorem splitLines_count (s : string) :
  length (splitLines s) = S (countLF s) /\
  List.Forall (fun l => hasLF l = false) (splitLines s).
Proof. apply Splits_count, splitLines_Splits. Qed.

(** X12.  Content of one line is rendered as it is, as the only child and
    without paragraph: nothing is trimmed, also when the line is blank. *)
Theorem plainText_single_line (content : string) (className : option string) :
  hasLF content = false ->
  plainText content className = RElement "div" None className None [RText content].
Proof.
  intros H. unfold plainText. rewrite (hasLF_false_splitLines content H).
  cbn [List.filter]. destruct (nonBlank content); reflexivity.
Qed.

Lemma plainText_single_line_witness :
  plainText "  Hello world  " None = RElement "div" None None None [RText "  Hello world  "].
Proof. exact (plainText_single_line "  Hello world  " None eq_refl). Defined.

(** ** The article page: headline, summary, sources, paragraphs *)

Lemma orElse_nonempty (o : option string) (d : string) :
  d <> EmptyString -> orElse o d <> EmptyString.
Proof.
  intros Hd. unfold orElse. destruct o as [s|]; [|exact Hd].
  destruct (String.eqb_spec s EmptyString); assumption.
Qed.

(** X13.  The headline is never empty: it is the title when there is a
    non-empty one, else the topic when there is a non-empty one, else the
    fixed text. *)
Theorem headline_nonempty (data : option Article.ArticleJson) :
  headline data <> EmptyString /\
  (truthy (field Article.title data) = true ->
   field Article.title data = Some (headline data)) /\
  (truthy (field Article.title data) = false ->
   truthy (field Article.topic data) = true ->
   field Article.topic data = Some (headline data)) /\
  (truthy (field Article.title data) = false ->
   truthy (field Article.topic data) = false ->
   headline data = "News Article").
Proof.
  unfold headline. split; [apply orElse_nonempty, orElse_nonempty; discriminate|].
  unfold orElse, truthy.
  destruct (field Article.title data) as [t|]; destruct (field Article.topic data) as [p|];
    try destruct (String.eqb_spec t EmptyString);
    try destruct (String.eqb_spec p EmptyString);
    cbn; repeat split; intros; try reflexivity; try discriminate.
Qed.

Lemma headline_nonempty_witness :
  field Article.topic
    (Some (Article.mkArticleJson (Some EmptyString) None None None None None None None None
             None None None None (Some "Economy")))
  = Some (headline
            (Some (Article.mkArticleJson (Some EmptyString) None None None None None None None
                     None None None None None (Some "Economy")))).
Proof.
  exact (proj1 (proj2 (proj2 (headline_nonempty
    (Some (Article.mkArticleJson (Some EmptyString) None None None None None None None None
             None None None None (Some "Economy")))))) eq_refl eq_refl).
Defined.

Lemma trimStart_head (s : string) :
  JS.trimStart s = EmptyString \/
  exists c r, JS.trimStart s = String c r /\ JS.isWhiteSpace c = false.
Proof.
  induction s as [|c s IH]; [left; reflexivity|].
  cbn. destruct (JS.isWhiteSpace c) eqn:E; [exact IH|].
  right. exists c, s. auto.
Qed.

Lemma trimEnd_head (c : ascii) (r : string) :
  JS.isWhiteSpace c = false -> exists r', JS.trimEnd (String c r) = String c r'.
Proof.
  intros H. cbn. rewrite H. destruct (JS.trimEnd r); eauto.
Qed.

Lemma trimEnd_idempotent (s : string) : JS.trimEnd (JS.trimEnd s) = JS.trimEnd s.
Proof.
  induction s as [|c s IH]; [reflexivity|].
  cbn [JS.trimEnd]. destruct (JS.trimEnd s) as [|d r'] eqn:E.
  - destruct (JS.isWhiteSpace c) eqn:W; [reflexivity|]. cbn. rewrite W. reflexivity.
  - cbn [JS.trimEnd]. cbn [JS.trimEnd] in IH.
    destruct (match JS.trimEnd r' with
              | EmptyString => if JS.isWhiteSpace d then EmptyString else String d EmptyString
              | String a s0 => String d (String a s0)
              end); [discriminate|].
    rewrite IH. reflexivity.
Qed.

Lemma trim_idempotent (s : string) : JS.trim (JS.trim s) = JS.trim s.
Proof.
  unfold JS.trim. destruct (trimStart_head s) as [->|(c & r & -> & Hc)]; [reflexivity|].
  destruct (trimEnd_head c r Hc) as [r' E]. rewrite E.
  cbn [JS.trimStart]. rewrite Hc, <- E. apply trimEnd_idempotent.
Qed.

(** X14.  The summary shown has no white space around it: it is the
    trimmed [summary] (or [summery] when [summary] is absent or empty) when
    that is not blank, the trimmed [description] otherwise. *)
Theorem aiSummary_trimmed (data : option Article.ArticleJson) :
  JS.trim (aiSummary data) = aiSummary data /\
  (aiSummary data = EmptyString <->
   JS.trim (orElse (field Article.summary data)
              (orElse (field Article.summery data) EmptyString)) = EmptyString /\
   JS.trim (orElse (field Article.description data) EmptyString) = EmptyString).
Proof.
  unfold aiSummary.
  destruct (String.eqb_spec
              (JS.trim (orElse (field Article.summary data)
                          (orElse (field Article.summery data) EmptyString)))
              EmptyString) as [E|E]; cbn [negb].
  - split; [apply trim_idempotent|]. rewrite E. tauto.
  - split; [apply trim_idempotent|]. tauto.
Qed.

Lemma In_firstn_list {A : Type} (n : nat) (l : list A) (x : A) :
  In x (firstn n l) -> In x l.
Proof.
  intros H. rewrite <- (firstn_skipn n l). apply in_or_app. left. exact H.
Qed.

Lemma pushNew_prefix (rs l : list string) : exists rest, fold_left pushNew rs l = l ++ rest.
Proof.
  revert l. induction rs as [|r rs IH]; intros l; [exists []; symmetry; apply List.app_nil_r|].
  cbn [fold_left]. destruct (IH (pushNew l r)) as [rest E]. rewrite E. unfold pushNew.
  destruct (negb (r =? EmptyString)%string && negb (listIncludes l r)).
  - exists ([r] ++ rest). rewrite <- List.app_assoc. reflexivity.
  - exists rest. reflexivity.
Qed.

Lemma listIncludes_In (l : list string) (r : string) : listIncludes l r = true <-> In r l.
Proof.
  unfold listIncludes. rewrite existsb_exists. split.
  - intros (x & Hx & E). apply String.eqb_eq in E. subst x. exact Hx.
  - intros H. exists r. split; [exact H | apply String.eqb_refl].
Qed.

Lemma pushNew_NoDup (rs l : list string) : List.NoDup l -> List.NoDup (fold_left pushNew rs l).
Proof.
  revert l. induction rs as [|r rs IH]; intros l Hl; [exact Hl|].
  cbn [fold_left]. apply IH. unfold pushNew.
  destruct (negb (r =? EmptyString)%string) ; cbn [andb]; [|exact Hl].
  destruct (listIncludes l r) eqn:E; cbn [negb]; [exact Hl|].
  apply List.NoDup_app; [exact Hl | constructor; [intros [] | constructor]|].
  intros x Hx [<-|[]]. apply listIncludes_In in Hx. congruence.
Qed.

Lemma pushNew_In (rs l : list string) (x : string) :
  In x (fold_left pushNew rs l) -> In x l \/ (In x rs /\ x <> EmptyString).
Proof.
  revert l. induction rs as [|r rs IH]; intros l; cbn [fold_left]; [auto|].
  intros H. apply IH in H as [H|[H Hx]]; [|right; split; [right|]; assumption].
  unfold pushNew in H. destruct (String.eqb_spec r EmptyString) as [E|E]; cbn in H; [auto|].
  destruct (listIncludes l r); cbn in H; [auto|].
  apply in_app_or in H as [H|[<-|[]]]; [auto|]. right. split; [left; reflexivity | exact E].
Qed.

Lemma pushIfTruthy_In (l : list string) (o : option string) (x : string) :
  In x (pushIfTruthy l o) -> In x l \/ (o = Some x /\ x <> EmptyString).
Proof.
  unfold pushIfTruthy. destruct o as [s|]; [|auto].
  destruct (String.eqb_spec s EmptyString) as [E|E]; [auto|].
  intros H. apply in_app_or in H as [H|[<-|[]]]; auto.
Qed.

(** X15.  At most two sources are shown; each of them is a non-empty
    string taken from [reference1], [reference2] or [references]. *)
Theorem sources_bounded (data : option Article.ArticleJson) :
  length (sources data) <= 2 /\
  List.Forall
    (fun s =>
       s <> EmptyString /\
       (field Article.reference1 data = Some s \/ field Article.reference2 data = Some s \/
        In s (default [] (field Article.references data))))
    (sources data).
Proof.
  unfold sources. split; [apply firstn_le_length|].
  apply List.Forall_forall. intros x Hx. apply In_firstn_list in Hx.
  apply pushNew_In in Hx as [Hx|[Hx Hn]]; [|tauto].
  apply pushIfTruthy_In in Hx as [Hx|[Hx Hn]]; [|tauto].
  apply pushIfTruthy_In in Hx as [[]|[Hx Hn]]. tauto.
Qed.

Lemma firstn_NoDup {A : Type} (n : nat) (l : list A) : List.NoDup l -> List.NoDup (firstn n l).
Proof.
  intros H. rewrite <- (firstn_skipn n l) in H.
  apply NoDup_app_remove_r in H. exact H.
Qed.

(** X16.  The sources shown are distinct except in one case: a non-empty
    [reference1] equal to [reference2] is shown twice (only the entries of
    [references] are compared with what is already listed). *)
Theorem sources_NoDup_iff (data : option Article.ArticleJson) :
  List.NoDup (sources data) <->
  ~ (truthy (field Article.reference1 data) = true /\
     field Article.reference1 data = field Article.reference2 data).
Proof.
  unfold sources.
  set (rs := default [] (field Article.references data)).
  destruct (field Article.reference1 data) as [a|] eqn:E1;
    destruct (field Article.reference2 data) as [b|] eqn:E2; cbn [pushIfTruthy truthy].
  - destruct (String.eqb_spec a EmptyString) as [Ea|Ea];
      destruct (String.eqb_spec b EmptyString) as [Eb|Eb]; cbn [negb app].
    + split; [intros _ [H _]; discriminate|]. intros _.
      apply firstn_NoDup, pushNew_NoDup. constructor.
    + split; [intros _ [H _]; discriminate|]. intros _.
      apply firstn_NoDup, pushNew_NoDup. (constructor; [intros [] | constructor]).
    + split; [intros _ [_ H]; congruence|]. intros _.
      apply firstn_NoDup, pushNew_NoDup. (constructor; [intros [] | constructor]).
    + destruct (pushNew_prefix rs [a; b]) as [rest ->]. cbn [app firstn]. split.
      * intros H [_ Hab]. injection Hab as ->. apply List.NoDup_cons_iff in H as [H _].
        apply H. left. reflexivity.
      * intros H. constructor; [|(constructor; [intros [] | constructor])].
        intros [<-|[]]. apply H. auto.
  - split; [intros _ [_ H]; discriminate|]. intros _.
    apply firstn_NoDup, pushNew_NoDup.
    destruct (a =? EmptyString)%string; [constructor | (constructor; [intros [] | constructor])].
  - split; [intros _ [H _]; discriminate|]. intros _.
    apply firstn_NoDup, pushNew_NoDup.
    destruct (b =? EmptyString)%string; [constructor | (constructor; [intros [] | constructor])].
  - split; [intros _ [H _]; discriminate|]. intros _.
    apply firstn_NoDup, pushNew_NoDup. constructor.
Qed.

Lemma pushNew_nil_iff (rs l : list string) :
  fold_left pushNew rs l = [] <-> l = [] /\ List.Forall (fun r => r = EmptyString) rs.
Proof.
  revert l. induction rs as [|r rs IH]; intros l; cbn [fold_left].
  - split; [intros ->; split; constructor | tauto].
  - rewrite IH. unfold pushNew. split.
    + intros [H Hrs]. destruct (String.eqb_spec r EmptyString) as [E|E]; cbn in H.
      * subst l. split; [reflexivity | constructor; assumption].
      * destruct (listIncludes l r) eqn:I; cbn in H;
          [subst l; discriminate I | destruct l; discriminate H].
    + intros [-> H]. apply List.Forall_cons_iff in H as [-> H]. cbn. auto.
Qed.

(** X17.  No source is shown exactly when [reference1] and [reference2]
    are absent or empty and [references] is absent or holds empty strings
    only. *)
Theorem sources_nil_iff (data : option Article.ArticleJson) :
  sources data = [] <->
  truthy (field Article.reference1 data) = false /\
  truthy (field Article.reference2 data) = false /\
  List.Forall (fun r => r = EmptyString) (default [] (field Article.references data)).
Proof.
  unfold sources.
  set (rs := default [] (field Article.references data)).
  set (l1 := pushIfTruthy (pushIfTruthy [] (field Article.reference1 data))
               (field Article.reference2 data)).
  assert (H2 : firstn 2 (fold_left pushNew rs l1) = [] <-> fold_left pushNew rs l1 = []).
  { destruct (fold_left pushNew rs l1) as [|x [|y l]]; cbn; split; congruence. }
  rewrite H2, pushNew_nil_iff.
  assert (H1 : l1 = [] <->
               truthy (field Article.reference1 data) = false /\
               truthy (field Article.reference2 data) = false).
  { unfold l1, pushIfTruthy, truthy.
    destruct (field Article.reference1 data) as [a|];
      destruct (field Article.reference2 data) as [b|];
      try destruct (String.eqb_spec a EmptyString);
      try destruct (String.eqb_spec b EmptyString); cbn;
      split; try (intros [? ?]); try (intros ?); try discriminate; auto. }
  tauto.
Qed.

Lemma splitBlank_cons2 (c c2 : ascii) (r2 : string) :
  splitBlank (String c (String c2 r2)) =
    if Ascii.eqb c chLF && Ascii.eqb c2 chLF
    then EmptyString :: splitBlank r2
    else consChar c (splitBlank (String c2 r2)).
Proof. reflexivity. Qed.

Lemma splitBlank_nonempty (s : string) : splitBlank s <> [].
Proof.
  assert (H : forall n s, String.length s <= n -> splitBlank s <> []).
  { clear s. induction n as [|n IH]; intros s Hn.
    - destruct s; [discriminate | cbn in Hn; lia].
    - destruct s as [|c [|c2 r2]]; try discriminate.
      rewrite splitBlank_cons2.
      destruct (Ascii.eqb c chLF && Ascii.eqb c2 chLF); [discriminate|].
      assert (Hr : splitBlank (String c2 r2) <> []) by (apply IH; cbn in *; lia).
      destruct (splitBlank (String c2 r2)); [congruence | cbn; discriminate]. }
  apply (H (String.length s)). lia.
Qed.

Lemma joinWith_consChar (sep : string) (c : ascii) (l : list string) :
  l <> [] -> joinWith sep (consChar c l) = String c (joinWith sep l).
Proof. destruct l as [|x [|y l]]; [congruence | reflexivity | reflexivity]. Qed.

Lemma joinWith_cons (sep x : string) (l : list string) :
  l <> [] -> joinWith sep (x :: l) = x +:+ sep +:+ joinWith sep l.
Proof. destruct l; [congruence | reflexivity]. Qed.

Lemma splitBlank_join (s : string) : joinWith blankLine (splitBlank s) = s.
Proof.
  assert (H : forall n s, String.length s <= n -> joinWith blankLine (splitBlank s) = s).
  { clear s. induction n as [|n IH]; intros s Hn.
    - destruct s; [reflexivity | cbn in Hn; lia].
    - destruct s as [|c [|c2 r2]]; [reflexivity | reflexivity|].
      rewrite splitBlank_cons2. destruct (Ascii.eqb c chLF && Ascii.eqb c2 chLF) eqn:E.
      + apply andb_true_iff in E as [E1 E2]. apply Ascii.eqb_eq in E1, E2. subst c c2.
        rewrite joinWith_cons by apply splitBlank_nonempty.
        rewrite IH by (cbn in Hn; lia). reflexivity.
      + rewrite joinWith_consChar by apply splitBlank_nonempty.
        rewrite IH by (cbn in *; lia). reflexivity. }
  apply (H (String.length s)). lia.
Qed.

(** ** The article page: keywords *)

Lemma wordChar_cases (c : ascii) :
  JS.isWhiteSpace (wordChar c) = true \/
  (JS.isWhiteSpace (wordChar c) = false /\ JS.isAsciiLower (wordChar c) = true).
Proof. destruct c as [[] [] [] [] [] [] [] []]; vm_compute; auto. Qed.

Lemma splitSpacesFrom_lower (inRun : bool) (t : string) :
  List.Forall (fun p => allLower p = true)
    (splitSpacesFrom inRun (JS.map_string wordChar t)).
Proof.
  revert inRun. induction t as [|c t IH]; intros inRun.
  - constructor; [reflexivity | constructor].
  - cbn [JS.map_string splitSpacesFrom].
    destruct (wordChar_cases c) as [W|[W L]]; rewrite W.
    + destruct inRun; [apply IH|]. constructor; [reflexivity | apply IH].
    + specialize (IH false). destruct (splitSpacesFrom false _) as [|x r]; cbn [consChar].
      * constructor; [cbn; rewrite L; reflexivity | constructor].
      * apply List.Forall_cons_iff in IH as [Hx Hr].
        constructor; [cbn; rewrite L, Hx; reflexivity | exact Hr].
Qed.

(** X19.  Every word that [keywords] counts is made of the letters a-z
    only, has more than three letters and is not a stop word. *)
Theorem keywordTokens_wellformed (data : option Article.ArticleJson) :
  List.Forall
    (fun w => allLower w = true /\ 3 < String.length w /\ has stopWords w = false)
    (keywordTokens data).
Proof.
  unfold keywordTokens. apply List.Forall_forall. intros w Hw.
  apply filter_In in Hw as [Hw Hk]. unfold isKeyword in Hk.
  apply andb_true_iff in Hk as [Hlen Hstop]. split; [|split].
  - pose proof (splitSpacesFrom_lower false
      (JS.toLowerCase
         (headline data +:+ " " +:+ orElse (field Article.topic data) EmptyString +:+ " "
          +:+ orElse (field Article.body data) EmptyString))) as H.
    rewrite List.Forall_forall in H. apply H. exact Hw.
  - apply Nat.ltb_lt. exact Hlen.
  - destruct (has stopWords w); [discriminate | reflexivity].
Qed.

(** *** The table of counts *)

Lemma occurrences_app (w : string) (l1 l2 : list string) :
  occurrences w (l1 ++ l2) = occurrences w l1 + occurrences w l2.
Proof. unfold occurrences. rewrite List.filter_app, List.length_app. reflexivity. Qed.

Lemma occurrences_zero (w : string) (ws : list string) :
  ~ In w ws -> occurrences w ws = 0.
Proof.
  unfold occurrences. induction ws as [|x ws IH]; intros H; [reflexivity|].
  cbn. destruct (String.eqb_spec x w) as [->|_].
  - destruct H. left. reflexivity.
  - apply IH. intros Hin. apply H. right. exact Hin.
Qed.

Lemma occurrences_pos (w : string) (ws : list string) :
  In w ws -> 0 < occurrences w ws.
Proof.
  unfold occurrences. induction ws as [|x ws IH]; intros H; [destruct H|].
  cbn. destruct (String.eqb_spec x w) as [->|Hne]; [cbn; lia|].
  apply IH. destruct H; [contradiction | assumption].
Qed.

Lemma firstOccurrences_In (w : string) (ws : list string) :
  In w (firstOccurrences ws) <-> In w ws.
Proof.
  induction ws as [|x ws IH]; [reflexivity|].
  cbn [firstOccurrences In]. rewrite filter_In, IH. split.
  - intros [H|[H _]]; auto.
  - intros [H|H]; [auto|].
    destruct (String.eqb_spec w x) as [->|Hne]; [auto|].
    right. split; [exact H | reflexivity].
Qed.

Lemma filter_NoDup {A : Type} (f : A -> bool) (l : list A) :
  List.NoDup l -> List.NoDup (List.filter f l).
Proof.
  induction 1 as [|x l Hx Hl IH]; [constructor|].
  cbn. destruct (f x); [|exact IH]. constructor; [|exact IH].
  intros H. apply filter_In in H. tauto.
Qed.

Lemma firstOccurrences_NoDup (ws : list string) : List.NoDup (firstOccurrences ws).
Proof.
  induction ws as [|x ws IH]; [constructor|].
  cbn [firstOccurrences]. constructor; [|apply filter_NoDup; exact IH].
  intros H. apply filter_In in H as [_ H]. rewrite String.eqb_refl in H. discriminate.
Qed.

Lemma firstOccurrences_snoc (ws : list string) (w : string) :
  firstOccurrences (ws ++ [w]) =
    if listIncludes ws w then firstOccurrences ws else firstOccurrences ws ++ [w].
Proof.
  induction ws as [|x ws IH]; [reflexivity|].
  cbn [app firstOccurrences]. rewrite IH. unfold listIncludes. cbn [existsb].
  fold (listIncludes ws w).
  destruct (listIncludes ws w); [rewrite orb_true_r; reflexivity|].
  rewrite orb_false_r, List.filter_app. cbn [List.filter].
  rewrite (String.eqb_sym w x).
  destruct (x =? w)%string; cbn [negb]; [rewrite List.app_nil_r|]; reflexivity.
Qed.

Lemma bump_absent (w : string) (g : string -> nat) (l : list string) :
  ~ In w l -> bump w (map (fun x => (x, g x)) l) = map (fun x => (x, g x)) l ++ [(w, 1)].
Proof.
  induction l as [|x l IH]; intros H; [reflexivity|].
  cbn. destruct (String.eqb_spec x w) as [->|_].
  - destruct H. left. reflexivity.
  - rewrite IH; [reflexivity|]. intros Hin. apply H. right. exact Hin.
Qed.

Lemma bump_present (w : string) (g g' : string -> nat) (l : list string) :
  List.NoDup l -> In w l -> g' w = S (g w) -> (forall x, x <> w -> g' x = g x) ->
  bump w (map (fun x => (x, g x)) l) = map (fun x => (x, g' x)) l.
Proof.
  intros Hnd Hin Hw Ho. induction l as [|x l IH]; [destruct Hin|].
  apply List.NoDup_cons_iff in Hnd as [Hx Hnd]. cbn.
  destruct (String.eqb_spec x w) as [->|Hne].
  - rewrite Hw. f_equal. apply map_ext_in. intros y Hy. rewrite Ho; [reflexivity|].
    intros ->. contradiction.
  - rewrite Ho by exact Hne. f_equal. apply IH; [exact Hnd|].
    destruct Hin; [contradiction | assumption].
Qed.

(** The table holds, for each word in the order of its first occurrence,
    the number of its occurrences. *)
Lemma countWords_spec (ws : list string) :
  countWords ws = map (fun w => (w, occurrences w ws)) (firstOccurrences ws).
Proof.
  induction ws as [|w ws IH] using rev_ind; [reflexivity|].
  unfold countWords in *. rewrite fold_left_app. cbn [fold_left]. rewrite IH.
  rewrite firstOccurrences_snoc.
  destruct (listIncludes ws w) eqn:E.
  - apply listIncludes_In in E.
    apply bump_present.
    + apply firstOccurrences_NoDup.
    + apply firstOccurrences_In. exact E.
    + rewrite occurrences_app. unfold occurrences at 2. cbn.
      rewrite String.eqb_refl. cbn. lia.
    + intros x Hx. rewrite occurrences_app. unfold occurrences at 2. cbn.
      destruct (String.eqb_spec w x) as [->|_]; [contradiction | cbn; lia].
  - assert (Hn : ~ In w ws) by (intros H; apply listIncludes_In in H; congruence).
    rewrite bump_absent by (rewrite firstOccurrences_In; exact Hn).
    rewrite List.map_app. cbn [map]. f_equal.
    + apply map_ext_in. intros x Hx. f_equal. rewrite occurrences_app.
      unfold occurrences at 3. cbn.
      destruct (String.eqb_spec w x) as [E'|_]; [|cbn; lia].
      exfalso. apply Hn. rewrite E'. apply firstOccurrences_In. exact Hx.
    + rewrite occurrences_app, (occurrences_zero w ws Hn). unfold occurrences. cbn.
      rewrite String.eqb_refl. reflexivity.
Qed.

(** *** The sort *)

Lemma insertDesc_perm (x : string * nat) (l : list (string * nat)) :
  Permutation (insertDesc x l) (x :: l).
Proof.
  induction l as [|y l IH]; [reflexivity|].
  cbn [insertDesc]. destruct (snd x <? snd y)%nat; [|reflexivity].
  rewrite IH. apply perm_swap.
Qed.

Lemma sortDesc_perm (l : list (string * nat)) : Permutation (sortDesc l) l.
Proof.
  induction l as [|x l IH]; [reflexivity|].
  cbn [sortDesc]. rewrite insertDesc_perm, IH. reflexivity.
Qed.

Lemma insertDesc_sorted (x : string * nat) (l : list (string * nat)) :
  StronglySorted (fun a b => snd b <= snd a) l ->
  StronglySorted (fun a b => snd b <= snd a) (insertDesc x l).
Proof.
  induction 1 as [|y l Hl IH Hy]; [repeat constructor|].
  cbn [insertDesc]. destruct (Nat.ltb_spec (snd x) (snd y)) as [Hlt|Hge].
  - constructor; [exact IH|].
    apply List.Forall_forall. intros z Hz.
    apply (Permutation_in _ (insertDesc_perm x l)) in Hz as [<-|Hz]; [lia|].
    rewrite List.Forall_forall in Hy. apply Hy. exact Hz.
  - constructor; [constructor; assumption|].
    constructor; [exact Hge|].
    apply List.Forall_forall. intros z Hz. rewrite List.Forall_forall in Hy.
    specialize (Hy z Hz). lia.
Qed.

Lemma sortDesc_sorted (l : list (string * nat)) :
  StronglySorted (fun a b => snd b <= snd a) (sortDesc l).
Proof.
  induction l as [|x l IH]; [constructor|]. cbn [sortDesc]. apply insertDesc_sorted. exact IH.
Qed.

Lemma insertDesc_filter (c : nat) (x : string * nat) (l : list (string * nat)) :
  List.filter (fun e => (snd e =? c)%nat) (insertDesc x l) =
  List.filter (fun e => (snd e =? c)%nat) (x :: l).
Proof.
  induction l as [|y l IH]; [reflexivity|].
  cbn [insertDesc]. destruct (Nat.ltb_spec (snd x) (snd y)) as [Hlt|Hge]; [|reflexivity].
  cbn [List.filter] in *. rewrite IH.
  destruct (Nat.eqb_spec (snd x) c) as [Ex|Ex]; [|reflexivity].
  destruct (Nat.eqb_spec (snd y) c) as [Ey|Ey]; [lia | reflexivity].
Qed.

(** The sort is stable: the entries of one count keep their order. *)
Lemma sortDesc_stable (c : nat) (l : list (string * nat)) :
  List.filter (fun e => (snd e =? c)%nat) (sortDesc l) =
  List.filter (fun e => (snd e =? c)%nat) l.
Proof.
  induction l as [|x l IH]; [reflexivity|].
  cbn [sortDesc]. rewrite insertDesc_filter. cbn [List.filter]. rewrite IH. reflexivity.
Qed.

(** *** The twelve most frequent words *)

Lemma countWords_keys (ws : list string) : map fst (countWords ws) = firstOccurrences ws.
Proof.
  rewrite countWords_spec, List.map_map. cbn [fst]. apply List.map_id.
Qed.

Lemma countWords_entry (ws : list string) (e : string * nat) :
  In e (countWords ws) -> In (fst e) ws /\ snd e = occurrences (fst e) ws.
Proof.
  rewrite countWords_spec. intros H. apply in_map_iff in H as (w & <- & Hw).
  apply (proj1 (firstOccurrences_In _ _)) in Hw. cbn. split; [exact Hw | reflexivity].
Qed.

Lemma sorted_entry (ws : list string) (e : string * nat) :
  In e (sortDesc (countWords ws)) -> In (fst e) ws /\ snd e = occurrences (fst e) ws.
Proof.
  intros H. apply countWords_entry. apply (Permutation_in _ (sortDesc_perm _)). exact H.
Qed.

Lemma topWords_firstn (ws : list string) :
  topWords ws = firstn 12 (map fst (sortDesc (countWords ws))).
Proof. unfold topWords. symmetry. apply List.firstn_map. Qed.

Lemma topWords_NoDup (ws : list string) : List.NoDup (topWords ws).
Proof.
  rewrite topWords_firstn. apply firstn_NoDup.
  apply (Permutation_NoDup (l := map fst (countWords ws))).
  - apply Permutation_map. symmetry. apply sortDesc_perm.
  - rewrite countWords_keys. apply firstOccurrences_NoDup.
Qed.

Lemma topWords_In (ws : list string) (w : string) : In w (topWords ws) -> In w ws.
Proof.
  unfold topWords. intros H. apply in_map_iff in H as (e & <- & He).
  apply In_firstn_list in He. apply sorted_entry in He. tauto.
Qed.

Lemma StronglySorted_app_inv {A : Type} (R : A -> A -> Prop) (l1 l2 : list A) :
  StronglySorted R (l1 ++ l2) ->
  StronglySorted R l1 /\ forall a b, In a l1 -> In b l2 -> R a b.
Proof.
  induction l1 as [|x l1 IH]; cbn; intros H.
  - split; [constructor | intros a b []].
  - apply StronglySorted_inv in H as [H Hx]. destruct (IH H) as [H1 H2].
    rewrite List.Forall_forall in Hx. split.
    + constructor; [exact H1|]. apply List.Forall_forall. intros y Hy.
      apply Hx. apply in_or_app. left. exact Hy.
    + intros a b [<-|Ha] Hb; [|apply H2; assumption].
      apply Hx. apply in_or_app. right. exact Hb.
Qed.

Lemma StronglySorted_map_in {A B : Type} (R : A -> A -> Prop) (R' : B -> B -> Prop)
    (f : A -> B) (l : list A) :
  (forall a b, In a l -> In b l -> R a b -> R' (f a) (f b)) ->
  StronglySorted R l -> StronglySorted R' (map f l).
Proof.
  intros Hf H. induction H as [|x l Hl IH Hx]; [constructor|].
  cbn. constructor.
  - apply IH. intros a b Ha Hb. apply Hf; right; assumption.
  - apply List.Forall_forall. intros y Hy. apply in_map_iff in Hy as (z & <- & Hz).
    rewrite List.Forall_forall in Hx.
    apply Hf; [left; reflexivity | right; exact Hz | apply Hx; exact Hz].
Qed.

Lemma topWords_sorted (ws : list string) :
  StronglySorted (fun a b => occurrences b ws <= occurrences a ws) (topWords ws).
Proof.
  unfold topWords.
  pose proof (sortDesc_sorted (countWords ws)) as H.
  rewrite <- (firstn_skipn 12 (sortDesc (countWords ws))) in H.
  apply StronglySorted_app_inv in H as [H _].
  eapply StronglySorted_map_in; [|exact H].
  intros a b Ha Hb Hab. cbn beta in Hab.
  apply In_firstn_list, sorted_entry in Ha as [_ Ea].
  apply In_firstn_list, sorted_entry in Hb as [_ Eb].
  rewrite <- Ea, <- Eb. exact Hab.
Qed.

Lemma topWords_ranking (ws : list string) (w w' : string) :
  In w (topWords ws) -> In w' ws -> ~ In w' (topWords ws) ->
  occurrences w' ws <= occurrences w ws.
Proof.
  unfold topWords. intros Hw Hw' Hn.
  apply in_map_iff in Hw as (e & <- & He).
  assert (He' : In (w', occurrences w' ws) (sortDesc (countWords ws))).
  { apply (Permutation_in _ (Permutation_sym (sortDesc_perm _))).
    rewrite countWords_spec. apply in_map_iff. exists w'. split; [reflexivity|].
    apply (proj2 (firstOccurrences_In _ _)). exact Hw'. }
  pose proof (sortDesc_sorted (countWords ws)) as H.
  rewrite <- (firstn_skipn 12 (sortDesc (countWords ws))) in H, He'.
  apply StronglySorted_app_inv in H as [_ H].
  apply in_app_or in He' as [He'|He'].
  - destruct Hn. apply in_map_iff. exists (w', occurrences w' ws). auto.
  - specialize (H e _ He He'). cbn in H.
    apply In_firstn_list, sorted_entry in He as [_ <-]. exact H.
Qed.

Lemma filter_map_fst (ws : list string) (c : nat) (l : list (string * nat)) :
  (forall e, In e l -> snd e = occurrences (fst e) ws) ->
  map fst (List.filter (fun e => (snd e =? c)%nat) l) =
  List.filter (fun w => (occurrences w ws =? c)%nat) (map fst l).
Proof.
  induction l as [|e l IH]; intros H; [reflexivity|].
  cbn [List.filter map]. rewrite <- (H e) by (left; reflexivity).
  rewrite <- IH by (intros x Hx; apply H; right; exact Hx).
  destruct (snd e =? c)%nat; reflexivity.
Qed.

Lemma topWords_ties (ws : list string) (c : nat) :
  exists rest,
    List.filter (fun w => (occurrences w ws =? c)%nat) (firstOccurrences ws) =
    List.filter (fun w => (occurrences w ws =? c)%nat) (topWords ws) ++ rest.
Proof.
  set (S := sortDesc (countWords ws)).
  exists (map fst (List.filter (fun e => (snd e =? c)%nat) (skipn 12 S))).
  rewrite <- countWords_keys.
  rewrite <- (filter_map_fst ws c (countWords ws)) by (intros e He; apply countWords_entry, He).
  rewrite <- (sortDesc_stable c (countWords ws)). fold S.
  rewrite <- (firstn_skipn 12 S) at 1. rewrite List.filter_app, List.map_app. f_equal.
  unfold topWords. fold S. apply filter_map_fst.
  intros e He. apply In_firstn_list in He. apply sorted_entry, He.
Qed.

Lemma topWords_nil_iff (ws : list string) : topWords ws = [] <-> ws = [].
Proof.
  split; [|intros ->; reflexivity].
  intros H. destruct ws as [|w ws]; [reflexivity|]. exfalso.
  assert (Hin : In (w, occurrences w (w :: ws)) (sortDesc (countWords (w :: ws)))).
  { apply (Permutation_in _ (Permutation_sym (sortDesc_perm _))).
    rewrite countWords_spec. apply in_map_iff. exists w. split; [reflexivity|].
    left. reflexivity. }
  unfold topWords in H. destruct (sortDesc (countWords (w :: ws))); [destruct Hin|].
  discriminate H.
Qed.

Lemma upper_lower (c : ascii) :
  JS.isAsciiLower c = true -> JS.asciiLowerChar (JS.asciiUpperChar c) = c.
Proof.
  destruct c as [[] [] [] [] [] [] [] []]; vm_compute; intros H;
    solve [reflexivity | discriminate H].
Qed.

Lemma allLower_asciiLowerCase (s : string) : allLower s = true -> JS.asciiLowerCase s = s.
Proof.
  induction s as [|c s IH]; [reflexivity|].
  cbn. intros H. apply andb_true_iff in H as [Hc Hs].
  fold (JS.asciiLowerCase s). rewrite (IH Hs). f_equal.
  revert Hc. destruct c as [[] [] [] [] [] [] [] []]; vm_compute; intros H;
    solve [reflexivity | discriminate H].
Qed.

(** Lower-casing a capitalised word of a-z gives the word back. *)
Lemma capitalize_lower (w : string) :
  allLower w = true -> JS.asciiLowerCase (capitalize w) = w.
Proof.
  destruct w as [|c r]; [reflexivity|]. cbn. intros H.
  apply andb_true_iff in H as [Hc Hr].
  fold (JS.asciiLowerCase r). rewrite (upper_lower c Hc), (allLower_asciiLowerCase r Hr).
  reflexivity.
Qed.

Lemma map_NoDup_inv {A B : Type} (f : A -> B) (g : B -> A) (l : list A) :
  (forall x, In x l -> g (f x) = x) -> List.NoDup l -> List.NoDup (map f l).
Proof.
  intros Hg H. induction H as [|x l Hx Hl IH]; [constructor|].
  cbn. constructor.
  - intros Hin. apply in_map_iff in Hin as (y & E & Hy). apply Hx.
    rewrite <- (Hg x) by (left; reflexivity). rewrite <- E.
    rewrite (Hg y) by (right; exact Hy). exact Hy.
  - apply IH. intros y Hy. apply Hg. right. exact Hy.
Qed.

(** X20.  When [keywords] has a result there are at most twelve keywords,
    all different; each is a counted word with its first letter in upper
    case; and there is no keyword exactly when no word was counted. *)
Theorem keywords_shape (data : option Article.ArticleJson) (ks : list string) :
  keywords data = Some ks ->
  length ks <= 12 /\
  List.NoDup ks /\
  List.Forall
    (fun k => In (JS.asciiLowerCase k) (keywordTokens data) /\
              k = capitalize (JS.asciiLowerCase k))
    ks /\
  (ks = [] <-> keywordTokens data = []).
Proof.
  unfold keywords. destruct (listIncludes _ _); [discriminate|].
  intros H. injection H as <-.
  set (ws := keywordTokens data).
  assert (Hl : forall w, In w (topWords ws) -> allLower w = true).
  { intros w Hw. apply topWords_In in Hw.
    pose proof (keywordTokens_wellformed data) as H. rewrite List.Forall_forall in H.
    apply H. exact Hw. }
  split; [|split; [|split]].
  - rewrite length_map, topWords_firstn. apply firstn_le_length.
  - apply (map_NoDup_inv capitalize JS.asciiLowerCase); [|apply topWords_NoDup].
    intros w Hw. apply capitalize_lower, Hl, Hw.
  - apply List.Forall_forall. intros k Hk. apply in_map_iff in Hk as (w & <- & Hw).
    rewrite (capitalize_lower w (Hl w Hw)). split; [apply topWords_In; exact Hw | reflexivity].
  - rewrite <- (topWords_nil_iff ws). split.
    + intros H. destruct (topWords ws); [reflexivity | discriminate H].
    + intros ->. reflexivity.
Qed.

Lemma keywords_shape_witness :
  keywords sampleArticle = Some ["Chips"; "Market"; "Great"; "Markets"; "Love"] /\
  List.NoDup ["Chips"; "Market"; "Great"; "Markets"; "Love"].
Proof.
  split; [reflexivity|].
  exact (proj1 (proj2 (keywords_shape sampleArticle _ eq_refl))).
Defined.

(** X21.  Unless the word [constructor] is counted, the keywords are the
    counted words ranked by falling number of occurrences: every keyword
    occurs at least as often as the keywords after it and as every counted
    word that is not a keyword. *)
Theorem keywords_ranked (data : option Article.ArticleJson) :
  listIncludes (keywordTokens data) "constructor" = false ->
  keywords data = Some (map capitalize (topWords (keywordTokens data))) /\
  StronglySorted
    (fun a b => occurrences b (keywordTokens data) <= occurrences a (keywordTokens data))
    (topWords (keywordTokens data)) /\
  (forall w w',
     In w (topWords (keywordTokens data)) -> In w' (keywordTokens data) ->
     ~ In w' (topWords (keywordTokens data)) ->
     occurrences w' (keywordTokens data) <= occurrences w (keywordTokens data)).
Proof.
  intros H. unfold keywords. rewrite H.
  split; [reflexivity|]. split; [apply topWords_sorted | apply topWords_ranking].
Qed.

Lemma keywords_ranked_witness :
  keywords sampleArticle = Some (map capitalize (topWords (keywordTokens sampleArticle))) /\
  topWords (keywordTokens sampleArticle) = ["chips"; "market"; "great"; "markets"; "love"].
Proof.
  split; [|reflexivity].
  exact (proj1 (keywords_ranked sampleArticle eq_refl)).
Defined.

(** X22.  Words that occur equally often keep the order of their first
    occurrence in the text: for every count, the keywords with that count
    are an initial part of the counted words with that count, taken in the
    order of first occurrence. *)
Theorem keywords_ties (data : option Article.ArticleJson) (c : nat) :
  listIncludes (keywordTokens data) "constructor" = false ->
  keywords data = Some (map capitalize (topWords (keywordTokens data))) /\
  exists rest,
    List.filter (fun w => (occurrences w (keywordTokens data) =? c)%nat)
      (firstOccurrences (keywordTokens data)) =
    List.filter (fun w => (occurrences w (keywordTokens data) =? c)%nat)
      (topWords (keywordTokens data)) ++ rest.
Proof.
  intros H. unfold keywords. rewrite H. split; [reflexivity | apply topWords_ties].
Qed.

Lemma keywords_ties_witness :
  exists rest,
    List.filter (fun w => (occurrences w (keywordTokens sampleArticle) =? 1)%nat)
      (firstOccurrences (keywordTokens sampleArticle)) =
    List.filter (fun w => (occurrences w (keywordTokens sampleArticle) =? 1)%nat)
      (topWords (keywordTokens sampleArticle)) ++ rest.
Proof. exact (proj2 (keywords_ties sampleArticle 1 eq_refl)). Defined.

(** ** The chatbot: the headlines of an answer *)

Lemma filter_sublist {A : Type} (f : A -> bool) (l : list A) : sublist (List.filter f l) l.
Proof.
  induction l as [|x l IH]; [constructor|].
  cbn. destruct (f x); [apply sublist_skip | apply sublist_cons]; exact IH.
Qed.

Lemma firstn_nil_iff {A : Type} (n : nat) (l : list A) :
  0 < n -> (firstn n l = [] <-> l = []).
Proof.
  intros Hn. destruct n; [lia|]. destruct l; cbn; split; congruence.
Qed.

(** X23.  At most three headlines are offered; they are items of the
    answer in the order of the answer; and there is no headline exactly
    when the answer has no item. *)
Theorem headlineItems_bounded (dataDomain : option string)
    (dataItems : option (list Api.ApiItem)) :
  length (headlineItems dataDomain dataItems) <= 3 /\
  sublist (headlineItems dataDomain dataItems) (default [] dataItems) /\
  (headlineItems dataDomain dataItems = [] <-> default [] dataItems = []).
Proof.
  unfold headlineItems.
  set (items := default [] dataItems).
  set (q := normDomain dataDomain).
  set (filtered :=
         if negb (q =? EmptyString)%string && negb (q =? "other")%string
         then List.filter (fun it => (normDomain (Api.domain it) =? q)%string) items
         else items).
  assert (Hs : sublist filtered items).
  { unfold filtered. destruct (_ && _); [apply filter_sublist | reflexivity]. }
  split; [apply firstn_le_length|]. split.
  - destruct (0 <? length filtered)%nat.
    + transitivity filtered; [apply sublist_take | exact Hs].
    + apply sublist_take.
  - rewrite firstn_nil_iff by lia.
    destruct (Nat.ltb_spec 0 (length filtered)) as [Hlt|Hge]; [|tauto].
    split; intros H.
    + rewrite H in Hlt. cbn in Hlt. lia.
    + rewrite H in Hs. apply sublist_nil_r in Hs. rewrite Hs in Hlt. cbn in Hlt. lia.
Qed.

(** X24.  When the answer names a domain other than [other] and some item
    is of that domain (compared trimmed and in lower case), every headline
    is of that domain; when it names none, names [other], or no item is of
    that domain, the headlines are the first three items. *)
Theorem headlineItems_domain (dataDomain : option string)
    (dataItems : option (list Api.ApiItem)) :
  let q := normDomain dataDomain in
  let items := default [] dataItems in
  let sameDomain := fun it => (normDomain (Api.domain it) =? q)%string in
  (q <> EmptyString -> q <> "other" -> existsb sameDomain items = true ->
   List.Forall (fun it => normDomain (Api.domain it) = q)
     (headlineItems dataDomain dataItems)) /\
  (q = EmptyString \/ q = "other" \/ existsb sameDomain items = false ->
   headlineItems dataDomain dataItems = firstn 3 items).
Proof.
  intros q items sameDomain. unfold headlineItems. fold items q. fold sameDomain.
  split.
  - intros H1 H2 He.
    apply String.eqb_neq in H1, H2. rewrite H1, H2. cbn [negb andb].
    apply existsb_exists in He as (it & Hit & Hs).
    assert (Hin : In it (List.filter sameDomain items)) by (apply filter_In; auto).
    destruct (List.filter sameDomain items) as [|x l] eqn:E; [destruct Hin|].
    cbn [length Nat.ltb Nat.leb]. rewrite <- E.
    apply List.Forall_forall. intros y Hy. apply In_firstn_list in Hy.
    apply filter_In in Hy as [_ Hy]. apply String.eqb_eq. exact Hy.
  - intros [H|[H|H]].
    + rewrite H. cbn. destruct (length items); reflexivity.
    + rewrite H. cbn. destruct (length items); reflexivity.
    + assert (Hf : List.filter sameDomain items = []).
      { destruct (List.filter sameDomain items) as [|x l] eqn:E; [reflexivity|].
        assert (Hx : In x (List.filter sameDomain items)) by (rewrite E; left; reflexivity).
        apply filter_In in Hx as [Hx Hs].
        assert (Hex : existsb sameDomain items = true)
          by (apply existsb_exists; exists x; auto).
        congruence. }
      destruct (negb (q =? EmptyString)%string && negb (q =? "other")%string).
      * rewrite Hf. reflexivity.
      * destruct (0 <? length items)%nat; reflexivity.
Qed.

Lemma headlineItems_domain_witness :
  List.Forall (fun it => normDomain (Api.domain it) = "politics")
    (headlineItems (Some "Politics") (Some sampleItems)) /\
  headlineItems (Some "Other") (Some sampleItems) = firstn 3 sampleItems.
Proof.
  split.
  - apply (proj1 (headlineItems_domain (Some "Politics") (Some sampleItems)));
      [discriminate | discriminate | reflexivity].
  - apply (proj2 (headlineItems_domain (Some "Other") (Some sampleItems))).
    right. left. reflexivity.
Defined.

(** ** Idempotence *)





(** ** The plain-text fallback, by its result *)

Lemma trimStart_nil_iff (l : string) :
  JS.trimStart l = EmptyString <-> onlyWhiteSpace l = true.
Proof.
  induction l as [|c l IH]; [split; reflexivity|].
  cbn. destruct (JS.isWhiteSpace c); cbn; [exact IH | split; discriminate].
Qed.

(** A line passes the filter exactly when it holds a code unit that is not
    white space. *)
Lemma nonBlank_onlyWhiteSpace (l : string) : nonBlank l = negb (onlyWhiteSpace l).
Proof.
  unfold nonBlank, JS.trim.
  destruct (trimStart_head l) as [E|(c & r & E & Hc)].
  - rewrite E. rewrite (proj1 (trimStart_nil_iff l) E). reflexivity.
  - rewrite E. destruct (trimEnd_head c r Hc) as [r' ->].
    destruct (onlyWhiteSpace l) eqn:O; [|reflexivity].
    apply trimStart_nil_iff in O. congruence.
Qed.

Lemma filter_nonBlank (ls : list string) :
  List.filter nonBlank ls = List.filter (fun l => negb (onlyWhiteSpace l)) ls.
Proof. apply List.filter_ext. intros l. apply nonBlank_onlyWhiteSpace. Qed.

(** C7.  The plain-text fallback cuts the content at every line feed and
    at every carriage return followed by a line feed, and keeps, without
    changing them, the pieces that hold a code unit other than white space.
    With at most one kept piece the result is the [div] whose only child
    is the content itself as text; with two or more it is the [div] whose
    children are, in order, one [p] element for each kept piece, with the
    index as key and the piece as its text.  So [Line1 LF Line2],
    [Line1 LF LF Line2] and the same with a line of blanks and a tab in
    between give the paragraphs [Line1] and [Line2]; a kept line keeps its
    own blanks; one line gives no paragraph. *)
Theorem plainText_paragraph_per_line (content : string) (className : option string) :
  let pieces := splitLines content in
  let kept := List.filter (fun l => negb (onlyWhiteSpace l)) pieces in
  (forall ls, Splits content ls <-> ls = pieces) /\
  (length kept <= 1 ->
   plainText content className = RElement "div" None className None [RText content]) /\
  (2 <= length kept ->
   exists ps,
     plainText content className = RElement "div" None className None ps /\
     length ps = length kept /\
     forall i l,
       kept !! i = Some l ->
       ps !! i = Some (RElement "p" (Some i) (Some "mb-2 last:mb-0") None [RText l])) /\
  plainText ("Line1" +:+ Browser.lf +:+ "Line2") className =
    RElement "div" None className None
      [RElement "p" (Some 0) (Some "mb-2 last:mb-0") None [RText "Line1"];
       RElement "p" (Some 1) (Some "mb-2 last:mb-0") None [RText "Line2"]] /\
  plainText ("Line1" +:+ Browser.lf +:+ Browser.lf +:+ "Line2") className =
    RElement "div" None className None
      [RElement "p" (Some 0) (Some "mb-2 last:mb-0") None [RText "Line1"];
       RElement "p" (Some 1) (Some "mb-2 last:mb-0") None [RText "Line2"]] /\
  plainText ("Line1" +:+ Browser.lf +:+ "  " +:+ String (ascii_of_nat 9) Browser.lf
             +:+ "Line2") className =
    RElement "div" None className None
      [RElement "p" (Some 0) (Some "mb-2 last:mb-0") None [RText "Line1"];
       RElement "p" (Some 1) (Some "mb-2 last:mb-0") None [RText "Line2"]] /\
  plainText (" Line1 " +:+ String chCR Browser.lf +:+ "Line2") className =
    RElement "div" None className None
      [RElement "p" (Some 0) (Some "mb-2 last:mb-0") None [RText " Line1 "];
       RElement "p" (Some 1) (Some "mb-2 last:mb-0") None [RText "Line2"]] /\
  plainText (Browser.lf +:+ " Hello " +:+ Browser.lf) className =
    RElement "div" None className None [RText (Browser.lf +:+ " Hello " +:+ Browser.lf)].
Proof.
  intros pieces kept.
  split; [intros ls; split; [apply Splits_unique | intros ->; apply splitLines_Splits]|].
  destruct (plainText_cases content className) as [H1 H2].
  rewrite filter_nonBlank in H1, H2. fold pieces kept in H1, H2.
  split; [exact H1|]. split; [|repeat split; reflexivity].
  intros H. exists (imap paragraph kept). split; [apply H2; exact H|].
  split; [apply length_imap|].
  intros i l Hl. rewrite list_lookup_imap, Hl. reflexivity.
Qed.

Lemma plainText_paragraph_per_line_witness :
  exists ps,
    plainText ("one" +:+ Browser.lf +:+ "  " +:+ Browser.lf +:+ " two") None
      = RElement "div" None None None ps /\
    ps !! 1 = Some (RElement "p" (Some 1) (Some "mb-2 last:mb-0") None [RText " two"]).
Proof.
  destruct (proj1 (proj2 (proj2 (plainText_paragraph_per_line
              ("one" +:+ Browser.lf +:+ "  " +:+ Browser.lf +:+ " two") None)))
              ltac:(vm_compute; lia)) as (ps & Hps & _ & Hi).
  exists ps. split; [exact Hps|]. apply Hi. reflexivity.
Defined.

(** ** The paragraphs of the article, by their cuts *)

Lemma splitBlank_one (c : ascii) :
  splitBlank (String c EmptyString) = [String c EmptyString].
Proof. reflexivity. Qed.

Lemma splitBlank_other (c : ascii) (r : string) :
  (Ascii.eqb c chLF = false \/ forall r2, r <> String chLF r2) ->
  splitBlank (String c r) = consChar c (splitBlank r).
Proof.
  intros H. destruct r as [|c2 r2]; [reflexivity|].
  rewrite splitBlank_cons2.
  destruct H as [H|H]; [rewrite H; reflexivity|].
  destruct (Ascii.eqb_spec c2 chLF) as [->|_]; [destruct (H r2); reflexivity|].
  rewrite andb_false_r. reflexivity.
Qed.

Lemma hasBlank_cons (c : ascii) (r : string) :
  hasBlank (String c r) = false ->
  hasBlank r = false /\ (Ascii.eqb c chLF = false \/ forall r2, r <> String chLF r2).
Proof.
  destruct r as [|c2 r2]; [intros _; split; [reflexivity | right; discriminate]|].
  cbn [hasBlank]. intros H. apply orb_false_iff in H as [H1 H2]. split; [exact H2|].
  apply andb_false_iff in H1 as [H1|H1]; [left; exact H1|].
  right. intros r0 E. injection E as -> _. rewrite Ascii.eqb_refl in H1. discriminate.
Qed.

Lemma hasBlank_cons_intro (c : ascii) (r : string) :
  hasBlank r = false ->
  (Ascii.eqb c chLF = false \/ forall r2, r <> String chLF r2) ->
  hasBlank (String c r) = false.
Proof.
  intros Hr H. destruct r as [|c2 r2]; [reflexivity|].
  cbn [hasBlank]. cbn [hasBlank] in Hr. rewrite Hr, orb_false_r.
  destruct H as [->|H]; [reflexivity|].
  destruct (Ascii.eqb_spec c2 chLF) as [->|_]; [destruct (H r2); reflexivity|].
  apply andb_false_r.
Qed.

Lemma hasBlank_false_splitBlank (l : string) : hasBlank l = false -> splitBlank l = [l].
Proof.
  induction l as [|c l IH]; [reflexivity|]. intros H.
  apply hasBlank_cons in H as [Hl Hc].
  rewrite splitBlank_other by exact Hc. rewrite (IH Hl). reflexivity.
Qed.

Lemma splitBlank_app_cut (l rest : string) :
  hasBlank l = false -> endsWithLF l = false ->
  splitBlank (l +:+ String chLF (String chLF rest)) = l :: splitBlank rest.
Proof.
  induction l as [|c l IH]; [intros; apply splitBlank_cons2|].
  intros H He. apply hasBlank_cons in H as [Hl Hc].
  rewrite app_cons, splitBlank_other.
  - rewrite IH; [reflexivity | exact Hl|]. destruct l; [reflexivity | exact He].
  - destruct l as [|d l].
    + left. exact He.
    + destruct Hc as [Hc|Hc]; [left; exact Hc|]. right.
      intros r2. rewrite app_cons. intros E. injection E as -> _.
      destruct (Hc l). reflexivity.
Qed.

(** The relation determines the paragraphs. *)
Lemma SplitsBlank_unique (s : string) (ls : list string) :
  SplitsBlank s ls -> ls = splitBlank s.
Proof.
  induction 1 as [l Hl|l rest ls Hl He _ IH].
  - symmetry. apply hasBlank_false_splitBlank. exact Hl.
  - rewrite splitBlank_app_cut, IH; auto.
Qed.

Lemma SplitsBlank_consChar (c : ascii) (r : string) (ls : list string) :
  (Ascii.eqb c chLF = false \/ forall r2, r <> String chLF r2) ->
  SplitsBlank r ls -> SplitsBlank (String c r) (consChar c ls).
Proof.
  intros Hc H. destruct H as [l Hl|l rest ls Hl He H]; cbn [consChar].
  - apply SplitsBlankLast. apply hasBlank_cons_intro; assumption.
  - rewrite <- app_cons. apply SplitsBlankCut; [| |exact H].
    + apply hasBlank_cons_intro; [exact Hl|].
      destruct Hc as [Hc|Hc]; [left; exact Hc|]. right.
      intros r2 ->. destruct (Hc (r2 +:+ String chLF (String chLF rest))). reflexivity.
    + destruct l as [|d l]; [|exact He].
      destruct Hc as [Hc|Hc]; [exact Hc|].
      destruct (Hc (String chLF rest)). reflexivity.
Qed.

Lemma splitBlank_SplitsBlank_bounded (n : nat) (s : string) :
  String.length s <= n -> SplitsBlank s (splitBlank s).
Proof.
  revert s. induction n as [|n IH]; intros s Hn.
  - destruct s; [|cbn in Hn; lia]. apply SplitsBlankLast. reflexivity.
  - destruct s as [|c [|c2 r2]].
    + apply SplitsBlankLast. reflexivity.
    + apply SplitsBlankLast. reflexivity.
    + destruct (Ascii.eqb c chLF && Ascii.eqb c2 chLF) eqn:E.
      * rewrite splitBlank_cons2, E.
        apply andb_true_iff in E as [E1 E2]. apply Ascii.eqb_eq in E1, E2. subst c c2.
        apply (SplitsBlankCut EmptyString); [reflexivity | reflexivity|].
        apply IH. cbn in Hn. lia.
      * assert (Hc : Ascii.eqb c chLF = false \/ forall r0, String c2 r2 <> String chLF r0).
        { apply andb_false_iff in E as [E|E]; [left; exact E|].
          right. intros r0 E'. injection E' as -> _. rewrite Ascii.eqb_refl in E.
          discriminate. }
        rewrite (splitBlank_other c (String c2 r2) Hc).
        apply SplitsBlank_consChar; [exact Hc|]. apply IH. cbn in Hn. cbn. lia.
Qed.

Lemma splitBlank_SplitsBlank (s : string) : SplitsBlank s (splitBlank s).
Proof. apply (splitBlank_SplitsBlank_bounded (String.length s)). lia. Qed.

Lemma SplitsBlank_pieces (s : string) (ls : list string) :
  SplitsBlank s ls -> List.Forall (fun p => hasBlank p = false) ls.
Proof. induction 1; constructor; auto. Qed.

(** X18.  The paragraphs of the article are the body cut at double line
    feeds, from the left: for a non-empty body they are the only list of
    pieces that joined by double line feeds give the body, where no piece
    holds a double line feed and no piece before a cut ends with a line
    feed; an absent or empty body gives no paragraph. *)
Theorem bodyParagraphs_cut (data : option Article.ArticleJson) :
  joinWith blankLine (bodyParagraphs data) = orElse (field Article.body data) EmptyString /\
  List.Forall (fun p => hasBlank p = false) (bodyParagraphs data) /\
  (orElse (field Article.body data) EmptyString = EmptyString ->
   bodyParagraphs data = []) /\
  (orElse (field Article.body data) EmptyString <> EmptyString ->
   forall ls,
     SplitsBlank (orElse (field Article.body data) EmptyString) ls <->
     ls = bodyParagraphs data).
Proof.
  unfold bodyParagraphs, orElse. destruct (field Article.body data) as [b|].
  - destruct (String.eqb_spec b EmptyString) as [->|Hb].
    + repeat split; try reflexivity; try constructor; try congruence.
    + split; [apply splitBlank_join|].
      split; [apply (SplitsBlank_pieces b), splitBlank_SplitsBlank|].
      split; [congruence|]. intros _ ls. split.
      * apply SplitsBlank_unique.
      * intros ->. apply splitBlank_SplitsBlank.
  - repeat split; try reflexivity; try constructor; try congruence.
Qed.

Lemma bodyParagraphs_cut_witness :
  bodyParagraphs
    (Some (Article.mkArticleJson None None
             (Some ("a" +:+ blankLine +:+ Browser.lf +:+ "b" +:+ blankLine +:+ "c"))
             None None None None None None None None None None None))
  = ["a"; Browser.lf +:+ "b"; "c"].
Proof.
  symmetry.
  apply (proj2 (proj2 (proj2 (bodyParagraphs_cut
    (Some (Article.mkArticleJson None None
             (Some ("a" +:+ blankLine +:+ Browser.lf +:+ "b" +:+ blankLine +:+ "c"))
             None None None None None None None None None None None)))))).
  - discriminate.
  - apply (SplitsBlankCut "a"); [reflexivity | reflexivity|].
    apply (SplitsBlankCut (Browser.lf +:+ "b")); [reflexivity | reflexivity|].
    apply SplitsBlankLast. reflexivity.
Defined.
